(** * tmd-optimizer: the tuned-mass-damper kernel of [src/services/tmdMath.ts]

    The kernel is written once, over an interface [Number] that lists the
    operations the TypeScript source applies to its [number] values, and is
    read in two arithmetics:

    - [Binary64.b64]: IEEE 754 binary64 with round-to-nearest-even, the
      arithmetic a JavaScript engine runs.  This reading is the program: it
      computes, so concrete runs of the kernel are evaluated in it, and what
      holds of every run is proved from the specification of the operations
      (their signs, their order, the cases of zero, infinity and
      not-a-number) and by following every path of the two searches the
      optimizer makes.
    - [Exact.xreal]: real numbers extended with [Infinity], [-Infinity] and
      [NaN], every operation exact: no rounding, no underflow, no overflow.
      This is the idealisation in which the design document writes its
      formulas.  A statement about it says what the formulas mean, not what
      the program returns; wherever a theorem has a part in exact
      arithmetic, its part in binary64 is the one about the running code.

    Where binary64 departs from exact arithmetic -- a loop that no longer
    ends, a bound that no longer holds, a value that is no longer finite, an
    equality that holds up to rounding only -- the departure is exhibited by
    a run.

    Loops whose trip count is not syntactically bounded take a [fuel]
    argument that counts executions of the loop body; [None] means the fuel
    ran out before the loop left through its guard. *)

From Stdlib Require Import ZArith List Bool Lia Floats Uint63.
From Stdlib Require Import Reals Lra Psatz.
Import ListNotations.

(** ** The operations of a JavaScript [number] used by the source *)

Class Number (T : Type) : Type := {
  ofZ : Z -> T;               (* an integer literal *)
  nadd : T -> T -> T;         (* x + y *)
  nsub : T -> T -> T;         (* x - y *)
  nmul : T -> T -> T;         (* x * y *)
  ndiv : T -> T -> T;         (* x / y *)
  Math_sqrt : T -> T;
  Math_abs : T -> T;
  nltb : T -> T -> bool;      (* x < y *)
  nleb : T -> T -> bool;      (* x <= y *)
  neqb : T -> T -> bool;      (* x === y *)
  Infinity : T
}.

Declare Scope num_scope.
Delimit Scope num_scope with num.
Notation "# z" := (ofZ z%Z) (at level 1, z at level 0, format "# z") : num_scope.
Infix "+" := nadd : num_scope.
Infix "-" := nsub : num_scope.
Infix "*" := nmul : num_scope.
Infix "/" := ndiv : num_scope.
Notation "x <? y" := (nltb x y) : num_scope.
Notation "x >? y" := (nltb y x) : num_scope.
Notation "x <=? y" := (nleb x y) : num_scope.
Notation "x === y" := (neqb x y) (at level 70, no associativity) : num_scope.

(** Sequencing of computations that may run out of fuel. *)
Notation "x <- e ;; k" := (match e with Some x => k | None => None end)
  (at level 61, e at next level, right associativity, only parsing).

(** ** The program *)

Section TmdMath.
Context {T : Type} `{Number T}.
Local Open Scope num_scope.

(** The decimal literal [m / 10^e]: [0.005] is [dec 5 3], [1e-4] is [dec 1 4].
    Both integers are exact in either arithmetic, and a correctly rounded
    quotient of two exact values is the value nearest to the decimal, which is
    what the literal denotes. *)
Definition dec (m : Z) (e : Z) : T := #m / ofZ (10 ^ e).

(** [Math.pow(x, 2)]: the square (correctly rounded in binary64). *)
Definition Math_pow2 (x : T) : T := x * x.

(** tmdMath.ts, lines 6-28. *)
Definition getAmplitude (g f zeta2 mu zeta1 : T) : T :=
  let g2 := g * g in
  let f2 := f * f in
  let term1 := f2 - g2 in
  let term2 := #2 * zeta2 * f * g in
  let num := Math_sqrt (term1 * term1 + term2 * term2) in
  let denPart1 := (#1 - g2) * term1 - mu * f2 * g2 - #4 * zeta1 * zeta2 * f * g2 in
  let denPart2 := #2 * zeta2 * f * g * (#1 - g2 - mu * g2) + #2 * zeta1 * g * term1 in
  let den := Math_sqrt (denPart1 * denPart1 + denPart2 * denPart2) in
  if den === #0 then #100 else num / den.

(** The locals [num] and [den] of [getAmplitude]. *)
Definition amplitude_num (g f zeta2 : T) : T :=
  let g2 := g * g in
  let f2 := f * f in
  let term1 := f2 - g2 in
  let term2 := #2 * zeta2 * f * g in
  Math_sqrt (term1 * term1 + term2 * term2).

Definition amplitude_den (g f zeta2 mu zeta1 : T) : T :=
  let g2 := g * g in
  let f2 := f * f in
  let term1 := f2 - g2 in
  let denPart1 := (#1 - g2) * term1 - mu * f2 * g2 - #4 * zeta1 * zeta2 * f * g2 in
  let denPart2 := #2 * zeta2 * f * g * (#1 - g2 - mu * g2) + #2 * zeta1 * g * term1 in
  Math_sqrt (denPart1 * denPart1 + denPart2 * denPart2).

(** tmdMath.ts, lines 33-37. *)
Definition getOriginalAmplitude (g zeta1 : T) : T :=
  let g2 := g * g in
  let den := Math_sqrt (Math_pow2 (#1 - g2) + Math_pow2 (#2 * zeta1 * g)) in
  if den === #0 then #100 else #1 / den.

(** The local [den] of [getOriginalAmplitude]. *)
Definition original_den (g zeta1 : T) : T :=
  let g2 := g * g in
  Math_sqrt (Math_pow2 (#1 - g2) + Math_pow2 (#2 * zeta1 * g)).

(** The scan [for (let g = 0.5; g <= 2.0; g += 0.005)] of lines 48-54, entered
    with the current [g] and [maxAmp].  [budget] bounds the passes; the scan
    variable does not depend on the arguments, and in both arithmetics the
    guard fails after 301 passes ([exact_scan_exit], [b64_scan_exit]), so a
    budget above 301 never cuts the loop short. *)
Fixpoint findPeak_for (budget : nat) (f zeta2 mu zeta1 : T) (g maxAmp : T) : T :=
  match budget with
  | O => maxAmp
  | S k =>
      if g <=? #2 then
        let amp := getAmplitude g f zeta2 mu zeta1 in
        findPeak_for k f zeta2 mu zeta1 (g + dec 5 3)
          (if amp >? maxAmp then amp else maxAmp)
      else maxAmp
  end.

Definition scanBudget : nat := 512.

(** tmdMath.ts, lines 42-55. *)
Definition findPeakAmplitude (f zeta2 mu zeta1 : T) : T :=
  findPeak_for scanBudget f zeta2 mu zeta1 (dec 5 1) #0.

(** The value of the scan variable after [n] increments. *)
Fixpoint scan_point (n : nat) : T :=
  match n with
  | O => dec 5 1
  | S k => scan_point k + dec 5 3
  end.

(** The variables of the loop of [goldenSectionSearch]. *)
Record GssVars : Type :=
  mkGss { ga : T; gb : T; gx1 : T; gx2 : T; gf1 : T; gf2 : T }.

(** One pass through the body of the [while] loop, lines 114-126. *)
Definition gss_body (f : T -> T) (phi : T) (s : GssVars) : GssVars :=
  if gf1 s <? gf2 s then
    let b := gx2 s in
    let x2 := gx1 s in
    let f2 := gf1 s in
    let x1 := b - phi * (b - ga s) in
    mkGss (ga s) b x1 x2 (f x1) f2
  else
    let a := gx1 s in
    let x1 := gx2 s in
    let f1 := gf2 s in
    let x2 := a + phi * (gb s - a) in
    mkGss a (gb s) x1 x2 f1 (f x2).

(** [while (Math.abs(b - a) > tol) { body }  return (a + b) / 2], lines 113-129. *)
Fixpoint gss_while (fuel : nat) (f : T -> T) (phi tol : T) (s : GssVars) : option T :=
  if Math_abs (gb s - ga s) >? tol then
    match fuel with
    | O => None
    | S k => gss_while k f phi tol (gss_body f phi s)
    end
  else Some ((ga s + gb s) / #2).

Definition gss_phi : T := (Math_sqrt #5 - #1) / #2.

Definition gss_init (f : T -> T) (lower upper : T) : GssVars :=
  let phi := gss_phi in
  let a := lower in
  let b := upper in
  let x1 := b - phi * (b - a) in
  let x2 := a + phi * (b - a) in
  mkGss a b x1 x2 (f x1) (f x2).

(** tmdMath.ts, lines 98-130. *)
Definition goldenSectionSearch (fuel : nat) (f : T -> T) (lower upper tol : T) : option T :=
  gss_while fuel f gss_phi tol (gss_init f lower upper).

(** The state of [gss_while] after [n] passes through the body. *)
Fixpoint gss_iter (n : nat) (f : T -> T) (phi : T) (s : GssVars) : GssVars :=
  match n with
  | O => s
  | S k => gss_iter k f phi (gss_body f phi s)
  end.

Record OptimizationResult : Type :=
  mkResult { f_opt : T; zeta2_opt : T; minPeakAmp : T }.

(** The variables of the coordinate-descent loop; [d_passes] counts the
    executions of its body. *)
Record DescentVars : Type :=
  mkDescent { d_f : T; d_zeta2 : T; d_prevVal : T; d_currentVal : T; d_passes : nat }.

(** [for (let iteration = 0; iteration < 20; iteration++)], lines 70-90, with
    [remaining = 20 - iteration]. *)
Fixpoint descent_for (fuel : nat) (mu zeta1 tolerance : T) (remaining : nat)
    (s : DescentVars) : option DescentVars :=
  match remaining with
  | O => Some s
  | S r =>
      f <- goldenSectionSearch fuel
             (fun testF => findPeakAmplitude testF (d_zeta2 s) mu zeta1)
             (dec 5 1) (dec 15 1) tolerance ;;
      zeta2 <- goldenSectionSearch fuel
             (fun testZ2 => findPeakAmplitude f testZ2 mu zeta1)
             (dec 1 2) (dec 5 1) tolerance ;;
      let currentVal := findPeakAmplitude f zeta2 mu zeta1 in
      if Math_abs (d_prevVal s - currentVal) <? tolerance
      then Some (mkDescent f zeta2 (d_prevVal s) currentVal (S (d_passes s)))
      else descent_for fuel mu zeta1 tolerance r
             (mkDescent f zeta2 currentVal currentVal (S (d_passes s)))
  end.

(** The warm start of lines 62-63. *)
Definition warm_f (mu : T) : T := #1 / (#1 + mu).
Definition warm_zeta2 (mu : T) : T := Math_sqrt ((#3 * mu) / (#8 * (#1 + mu))).

Definition optimizeTMD_run (fuel : nat) (mu zeta1 : T) : option DescentVars :=
  let f := warm_f mu in
  let zeta2 := warm_zeta2 mu in
  let tolerance := dec 1 4 in
  let prevVal := Infinity in
  let currentVal := findPeakAmplitude f zeta2 mu zeta1 in
  descent_for fuel mu zeta1 tolerance 20 (mkDescent f zeta2 prevVal currentVal 0).

(** tmdMath.ts, lines 60-93. *)
Definition optimizeTMD (fuel : nat) (mu zeta1 : T) : option OptimizationResult :=
  s <- optimizeTMD_run fuel mu zeta1 ;;
  Some (mkResult (d_f s) (d_zeta2 s) (d_currentVal s)).

End TmdMath.

Arguments GssVars T : clear implicits.
Arguments OptimizationResult T : clear implicits.
Arguments DescentVars T : clear implicits.

(** ** Binary64: the arithmetic of the JavaScript engine *)

Module Binary64.

Definition b64_ofZ (z : Z) : float :=
  if (z <? 0)%Z then PrimFloat.opp (PrimFloat.of_uint63 (Uint63.of_Z (- z)))
  else PrimFloat.of_uint63 (Uint63.of_Z z).

#[export] Instance b64 : Number float := {|
  ofZ := b64_ofZ;
  nadd := PrimFloat.add;
  nsub := PrimFloat.sub;
  nmul := PrimFloat.mul;
  ndiv := PrimFloat.div;
  Math_sqrt := PrimFloat.sqrt;
  Math_abs := PrimFloat.abs;
  nltb := PrimFloat.ltb;
  nleb := PrimFloat.leb;
  neqb := PrimFloat.eqb;
  Infinity := PrimFloat.infinity
|}.

End Binary64.

(** ** Exact: extended reals with exact operations, the idealisation of the
    design document (not the arithmetic of the program) *)

Module Exact.

Inductive xreal : Type :=
| Fin (r : R)
| PInf
| NInf
| NaN.

Definition Rltb (x y : R) : bool := if Rlt_dec x y then true else false.
Definition Rleb (x y : R) : bool := if Rle_dec x y then true else false.
Definition Reqb (x y : R) : bool := if Req_dec_T x y then true else false.

Definition inf_of_sign (negative : bool) : xreal := if negative then NInf else PInf.

Definition xadd (x y : xreal) : xreal :=
  match x, y with
  | Fin a, Fin b => Fin (a + b)
  | NaN, _ | _, NaN => NaN
  | PInf, NInf | NInf, PInf => NaN
  | PInf, _ | _, PInf => PInf
  | NInf, _ | _, NInf => NInf
  end.

Definition xopp (x : xreal) : xreal :=
  match x with
  | Fin a => Fin (- a)
  | PInf => NInf
  | NInf => PInf
  | NaN => NaN
  end.

Definition xsub (x y : xreal) : xreal :=
  match x, y with
  | Fin a, Fin b => Fin (a - b)
  | _, _ => xadd x (xopp y)
  end.

Definition xmul (x y : xreal) : xreal :=
  match x, y with
  | Fin a, Fin b => Fin (a * b)
  | NaN, _ | _, NaN => NaN
  | Fin a, PInf | PInf, Fin a => if Reqb a 0 then NaN else inf_of_sign (Rltb a 0)
  | Fin a, NInf | NInf, Fin a => if Reqb a 0 then NaN else inf_of_sign (negb (Rltb a 0))
  | PInf, PInf | NInf, NInf => PInf
  | PInf, NInf | NInf, PInf => NInf
  end.

(** Zero carries no sign here: a nonzero value over zero takes the sign of the
    numerator. *)
Definition xdiv (x y : xreal) : xreal :=
  match x, y with
  | Fin a, Fin b =>
      if Reqb b 0 then (if Reqb a 0 then NaN else inf_of_sign (Rltb a 0))
      else Fin (a / b)
  | NaN, _ | _, NaN => NaN
  | Fin _, PInf | Fin _, NInf => Fin 0
  | PInf, Fin b => inf_of_sign (Rltb b 0)
  | NInf, Fin b => inf_of_sign (negb (Rltb b 0))
  | _, _ => NaN
  end.

Definition xsqrt (x : xreal) : xreal :=
  match x with
  | Fin a => if Rltb a 0 then NaN else Fin (sqrt a)
  | PInf => PInf
  | NInf | NaN => NaN
  end.

Definition xabs (x : xreal) : xreal :=
  match x with
  | Fin a => Fin (Rabs a)
  | PInf | NInf => PInf
  | NaN => NaN
  end.

Definition xltb (x y : xreal) : bool :=
  match x, y with
  | Fin a, Fin b => Rltb a b
  | NInf, Fin _ | NInf, PInf | Fin _, PInf => true
  | _, _ => false
  end.

Definition xleb (x y : xreal) : bool :=
  match x, y with
  | Fin a, Fin b => Rleb a b
  | NInf, Fin _ | NInf, PInf | Fin _, PInf | NInf, NInf | PInf, PInf => true
  | _, _ => false
  end.

Definition xeqb (x y : xreal) : bool :=
  match x, y with
  | Fin a, Fin b => Reqb a b
  | PInf, PInf | NInf, NInf => true
  | _, _ => false
  end.

#[export] Instance exact : Number xreal := {|
  ofZ := fun z => Fin (IZR z);
  nadd := xadd;
  nsub := xsub;
  nmul := xmul;
  ndiv := xdiv;
  Math_sqrt := xsqrt;
  Math_abs := xabs;
  nltb := xltb;
  nleb := xleb;
  neqb := xeqb;
  Infinity := PInf
|}.

End Exact.

Import Exact.
Import Binary64.
Set Warnings "-inexact-float".

(** * Vocabulary of the statements

    ** In any arithmetic *)

Section Vocabulary.
Context {T : Type} `{Number T}.
Local Open Scope num_scope.

(** The guard of the [while] loop of [goldenSectionSearch]. *)
Definition gss_guard (tol : T) (s : GssVars T) : bool :=
  Math_abs (gb s - ga s) >? tol.

(** The value returned when the loop is left. *)
Definition gss_mid (s : GssVars T) : T := (ga s + gb s) / #2.

(** [gss_all_paths depth ok phi tol a b x1 x2]: on every sequence of
    comparison outcomes the loop, entered with bracket [a, b] and probes
    [x1], [x2], is left within [depth] passes with a midpoint accepted by
    [ok]. *)
Fixpoint gss_all_paths (depth : nat) (ok : T -> bool) (phi tol a b x1 x2 : T) : bool :=
  if Math_abs (b - a) >? tol then
    match depth with
    | O => false
    | S d =>
        gss_all_paths d ok phi tol a x2 (x2 - phi * (x2 - a)) x1
        && gss_all_paths d ok phi tol x1 b x2 (x1 + phi * (b - x1))
    end
  else ok ((a + b) / #2).

(** The update of [maxAmp] at scan point [k]. *)
Definition scan_update (f zeta2 mu zeta1 : T) (maxAmp : T) (k : nat) : T :=
  let amp := getAmplitude (scan_point k) f zeta2 mu zeta1 in
  if amp >? maxAmp then amp else maxAmp.

(** The guard [g <= 2.0] holds at the scan points [0..last] and fails at the
    next one: the loop makes exactly [last + 1] passes. *)
Definition scan_exits_after (last : nat) : Prop :=
  (forall k, (k <= last)%nat -> (scan_point k <=? #2) = true)
  /\ (scan_point (S last) <=? #2) = false.

(** The run of [optimizeTMD] returns, after between 1 and 20 passes of the
    descent loop, the pair of the last pass together with the peak amplitude
    at that pair. *)
Definition returns_current_peak (fuel : nat) (mu zeta1 : T) : Prop :=
  exists (s : DescentVars T) (r : OptimizationResult T),
    optimizeTMD_run fuel mu zeta1 = Some s
    /\ (1 <= d_passes s <= 20)%nat
    /\ optimizeTMD fuel mu zeta1 = Some r
    /\ f_opt r = d_f s /\ zeta2_opt r = d_zeta2 s
    /\ minPeakAmp r = findPeakAmplitude (f_opt r) (zeta2_opt r) mu zeta1.

End Vocabulary.

(** ** In exact arithmetic *)

Section ExactVocabulary.
Local Open Scope R_scope.

(** The intermediate values of [getAmplitude] on finite arguments, under the
    names the source gives them. *)
Definition term1R (g f : R) : R := f * f - g * g.
Definition term2R (g f zeta2 : R) : R := 2 * zeta2 * f * g.
Definition denPart1R (g f zeta2 mu zeta1 : R) : R :=
  (1 - g * g) * term1R g f - mu * (f * f) * (g * g) - 4 * zeta1 * zeta2 * f * (g * g).
Definition denPart2R (g f zeta2 mu zeta1 : R) : R :=
  2 * zeta2 * f * g * (1 - g * g - mu * (g * g)) + 2 * zeta1 * g * term1R g f.
Definition numR (g f zeta2 : R) : R :=
  sqrt (term1R g f * term1R g f + term2R g f zeta2 * term2R g f zeta2).
Definition denR (g f zeta2 mu zeta1 : R) : R :=
  sqrt (denPart1R g f zeta2 mu zeta1 * denPart1R g f zeta2 mu zeta1
        + denPart2R g f zeta2 mu zeta1 * denPart2R g f zeta2 mu zeta1).
(** The denominator of [getOriginalAmplitude]. *)
Definition denOrigR (g zeta1 : R) : R :=
  sqrt ((1 - g * g) * (1 - g * g) + (2 * zeta1 * g) * (2 * zeta1 * g)).

(** The value of [getAmplitude] on finite arguments, and that of
    [getOriginalAmplitude]. *)
Definition ampR (g f zeta2 mu zeta1 : R) : R :=
  if Reqb (denR g f zeta2 mu zeta1) 0 then 100
  else numR g f zeta2 / denR g f zeta2 mu zeta1.

Definition origR (g zeta1 : R) : R :=
  if Reqb (denOrigR g zeta1) 0 then 100 else 1 / denOrigR g zeta1.

(** The [k]-th point of the scan grid: [0.5 + 0.005 * k]. *)
Definition gridR (k : nat) : R := 5 / 10 + INR k * (5 / 1000).

(** The running maximum of the amplitudes at the grid points [k, k+1, ...
    k+n-1], started from [m]. *)
Fixpoint scanR (n k : nat) (f zeta2 mu zeta1 m : R) : R :=
  match n with
  | O => m
  | S n' => scanR n' (S k) f zeta2 mu zeta1 (Rmax m (ampR (gridR k) f zeta2 mu zeta1))
  end.

(** The value of [findPeakAmplitude] on finite arguments. *)
Definition peakR (f zeta2 mu zeta1 : R) : R := scanR 301 0 f zeta2 mu zeta1 0.

(** The golden ratio conjugate [(sqrt 5 - 1) / 2]. *)
Definition phiR : R := (sqrt 5 - 1) / 2.

(** The real carried by a finite value. *)
Definition xval (x : xreal) : R :=
  match x with
  | Fin r => r
  | _ => 0
  end.

(** What the loop of [goldenSectionSearch] maintains in exact arithmetic: the
    bracket and both probes are finite, the probes sit at the golden-section
    points of the bracket, and [f1], [f2] are the objective at the probes. *)
Record gss_inv (f : xreal -> xreal) (s : GssVars xreal) : Prop := mkGssInv {
  inv_a : ga s = Fin (xval (ga s));
  inv_b : gb s = Fin (xval (gb s));
  inv_x1 : gx1 s = Fin (xval (gb s) - phiR * (xval (gb s) - xval (ga s)));
  inv_x2 : gx2 s = Fin (xval (ga s) + phiR * (xval (gb s) - xval (ga s)));
  inv_f1 : gf1 s = f (gx1 s);
  inv_f2 : gf2 s = f (gx2 s)
}.

(** The signed width [b - a] of the bracket. *)
Definition widthR (s : GssVars xreal) : R := xval (gb s) - xval (ga s).

(** A state of the invariant is determined by its bracket. *)
Definition gss_state (f : xreal -> xreal) (a b : R) : GssVars xreal :=
  mkGss (Fin a) (Fin b)
    (Fin (b - phiR * (b - a))) (Fin (a + phiR * (b - a)))
    (f (Fin (b - phiR * (b - a)))) (f (Fin (a + phiR * (b - a)))).

(** The result lies in the two search boxes. *)
Definition exact_in_boxes (r : OptimizationResult xreal) : Prop :=
  exists f zeta2 : R,
    f_opt r = Fin f /\ zeta2_opt r = Fin zeta2
    /\ (5 / 10 <= f <= 15 / 10)%R /\ (1 / 100 <= zeta2 <= 5 / 10)%R.

End ExactVocabulary.

(** ** In binary64 *)

Section Binary64Vocabulary.
Local Open Scope float_scope.

Definition in_box (lo hi : float) (r : float) : bool := (lo <=? r)%float && (r <=? hi)%float.

Definition b64_in_boxes (r : OptimizationResult float) : Prop :=
  in_box 0.5 1.5 (f_opt r) = true /\ in_box 0.01 0.5 (zeta2_opt r) = true.

End Binary64Vocabulary.

(** ** The component: App.tsx *)

Module App.
Section App.
Context {T : Type} `{Number T}.
Local Open Scope num_scope.

(** [parseFloat(x.toFixed(3))] of lines 51 and 76, the label of a chart
    point: the number nearest to [x] rounded to three decimals.  It is kept
    abstract; nothing below depends on it. *)
Variable parseFloat_toFixed3 : T -> T.

(** The state [params]: interface [SystemParams] of types.ts. *)
Record SystemParams : Type := mkSystemParams {
  m1 : T;
  f1 : T;
  zeta1 : T;
  m2 : T
}.

(** The initial state, lines 24-29. *)
Definition initialParams : SystemParams :=
  mkSystemParams #1000 #5 (dec 5 2) #50.

(** The object [{...optimizeTMD(mu, params.zeta1), mu}] of lines 37-40
    (interface [OptimizationResult] of types.ts): the three fields of the
    optimizer's result, [spread], and [mu]. *)
Record Optimization : Type := mkOptimization {
  spread : OptimizationResult T;
  mu : T
}.

(** App.tsx, lines 35-41. *)
Definition optimization (fuel : nat) (params : SystemParams) : option Optimization :=
  let mu := m2 params / m1 params in
  r <- optimizeTMD fuel mu (zeta1 params) ;;
  Some (mkOptimization r mu).

(** The objects pushed at lines 50-62: interface [FrequencyDataPoint] of
    types.ts. *)
Record FrequencyDataPoint : Type := mkFrequencyDataPoint {
  g : T;
  originalAmp : T;
  optimizedAmp : T;
  z50 : T;
  z80 : T;
  z120 : T;
  z150 : T;
  f98 : T;
  f99 : T;
  f101 : T;
  f102 : T
}.

(** The object of lines 50-62 for the loop variable [g]. *)
Definition frequencyPoint (params : SystemParams) (f_opt zeta2_opt : T) (g : T)
    : FrequencyDataPoint :=
  let mu := m2 params / m1 params in
  mkFrequencyDataPoint
    (parseFloat_toFixed3 g)
    (getOriginalAmplitude g (zeta1 params))
    (getAmplitude g f_opt zeta2_opt mu (zeta1 params))
    (getAmplitude g f_opt (zeta2_opt * dec 5 1) mu (zeta1 params))
    (getAmplitude g f_opt (zeta2_opt * dec 8 1) mu (zeta1 params))
    (getAmplitude g f_opt (zeta2_opt * dec 12 1) mu (zeta1 params))
    (getAmplitude g f_opt (zeta2_opt * dec 15 1) mu (zeta1 params))
    (getAmplitude g (f_opt * dec 98 2) zeta2_opt mu (zeta1 params))
    (getAmplitude g (f_opt * dec 99 2) zeta2_opt mu (zeta1 params))
    (getAmplitude g (f_opt * dec 101 2) zeta2_opt mu (zeta1 params))
    (getAmplitude g (f_opt * dec 102 2) zeta2_opt mu (zeta1 params)).

(** The loop [for (let g = 0.5; g <= 2.0; g += 0.015)] of lines 49-63,
    entered with the current [g] and [data]; [data.push] appends.  [None]:
    the budget of passes is used up. *)
Fixpoint frequencyData_for (budget : nat) (params : SystemParams) (f_opt zeta2_opt : T)
    (g : T) (data : list FrequencyDataPoint) : option (list FrequencyDataPoint) :=
  match budget with
  | O => None
  | S k =>
      if g <=? #2 then
        frequencyData_for k params f_opt zeta2_opt (g + dec 15 3)
          (data ++ [frequencyPoint params f_opt zeta2_opt g])
      else Some data
  end.

Definition loopBudget : nat := 512.

(** App.tsx, lines 44-65; [optimization] is the value of lines 35-41 for the
    same [params]. *)
Definition frequencyData (fuel : nat) (params : SystemParams)
    : option (list FrequencyDataPoint) :=
  o <- optimization fuel params ;;
  frequencyData_for loopBudget params (f_opt (spread o)) (zeta2_opt (spread o))
    (dec 5 1) [].

(** The objects pushed at lines 75-80: interface [MassRatioDataPoint] of
    types.ts, whose fields [mu], [f_opt] and [zeta2_opt] are here [point_mu],
    [point_f_opt] and [point_zeta2_opt]. *)
Record MassRatioDataPoint : Type := mkMassRatioDataPoint {
  point_mu : T;
  peakAmp : T;
  point_f_opt : T;
  point_zeta2_opt : T
}.

(** The object of lines 75-80 for the loop variable [mu]. *)
Definition massRatioPoint (fuel : nat) (params : SystemParams) (mu : T)
    : option MassRatioDataPoint :=
  opt <- optimizeTMD fuel mu (zeta1 params) ;;
  Some (mkMassRatioDataPoint (parseFloat_toFixed3 mu)
          (minPeakAmp opt) (f_opt opt) (zeta2_opt opt)).

(** The loop [for (let mu = 0.01; mu <= 1.0; mu += 0.005)] of lines 73-81. *)
Fixpoint massRatio_for (fuel budget : nat) (params : SystemParams)
    (mu : T) (data : list MassRatioDataPoint) : option (list MassRatioDataPoint) :=
  match budget with
  | O => None
  | S k =>
      if mu <=? #1 then
        p <- massRatioPoint fuel params mu ;;
        massRatio_for fuel k params (mu + dec 5 3) (data ++ [p])
      else Some data
  end.

(** App.tsx, lines 71-83: the list handed to [setMassRatioData]. *)
Definition calculateMassRatioCurve (fuel : nat) (params : SystemParams)
    : option (list MassRatioDataPoint) :=
  massRatio_for fuel loopBudget params (dec 1 2) [].

End App.

Arguments SystemParams T : clear implicits.
Arguments Optimization T : clear implicits.
Arguments FrequencyDataPoint T : clear implicits.
Arguments MassRatioDataPoint T : clear implicits.

End App.

(** ** The input field: NumberInput.tsx *)

Section NumberInput.
Context {T : Type} `{Number T}.
Local Open Scope num_scope.

(** JavaScript's [ToBoolean] on a number: false for [0], [-0] and a
    not-a-number (the only number that differs from itself), true
    otherwise. *)
Definition ToBoolean (x : T) : bool := (x === x) && negb (x === #0).

(** [a || b] on numbers. *)
Definition js_or (a b : T) : T := if ToBoolean a then a else b.

(** The number handed to [onChange] by the input's handler,
    [parseFloat(e.target.value) || 0], for the result [parsed] of
    [parseFloat]. *)
Definition onChange_value (parsed : T) : T := js_or parsed #0.

End NumberInput.

(** ** Vocabulary of the further properties *)

Section MoreVocabulary.
Context {T : Type} `{Number T}.
Local Open Scope num_scope.

(** [gss_all_paths_stay depth phi tol a b x1 x2]: on every sequence of
    comparison outcomes the guard of the loop, entered with bracket [a, b]
    and probes [x1], [x2], still holds after each of the first [depth]
    passes. *)
Fixpoint gss_all_paths_stay (depth : nat) (phi tol a b x1 x2 : T) : bool :=
  (Math_abs (b - a) >? tol)
  && match depth with
     | O => true
     | S d =>
         gss_all_paths_stay d phi tol a x2 (x2 - phi * (x2 - a)) x1
         && gss_all_paths_stay d phi tol x1 b x2 (x1 + phi * (b - x1))
     end.

(** The laws of IEEE 754 for a not-a-number [nan] that the program meets:
    arithmetic propagates it and every comparison with it is false. *)
Record NanLaws (nan : T) : Prop := mkNanLaws {
  nan_add_l : forall x, nan + x = nan;
  nan_add_r : forall x, x + nan = nan;
  nan_sub_l : forall x, nan - x = nan;
  nan_sub_r : forall x, x - nan = nan;
  nan_mul_l : forall x, nan * x = nan;
  nan_mul_r : forall x, x * nan = nan;
  nan_div_r : forall x, x / nan = nan;
  nan_sqrt : Math_sqrt nan = nan;
  nan_eqb_l : forall x, (nan === x) = false;
  nan_ltb_r : forall x, (x <? nan) = false;
  nan_zero : #0 <> nan
}.

(** [prevVal] holds the peak amplitude at some pair. *)
Definition prev_is_a_peak (mu zeta1 : T) (s : DescentVars T) : Prop :=
  exists f zeta2, d_prevVal s = findPeakAmplitude f zeta2 mu zeta1.

(** The value of [g] on entry to pass [n] of the loop of App.tsx, line 49. *)
Fixpoint chart_point (n : nat) : T :=
  match n with
  | O => dec 5 1
  | S k => chart_point k + dec 15 3
  end.

(** The value of [mu] on entry to pass [n] of the loop of App.tsx, line 73. *)
Fixpoint curve_point (n : nat) : T :=
  match n with
  | O => dec 1 2
  | S k => curve_point k + dec 5 3
  end.

(** The guard [x <= bound] holds at the points [0 .. last] of a loop and
    fails at the next one: the loop makes [last + 1] passes. *)
Definition exits_after (point : nat -> T) (bound : T) (last : nat) : Prop :=
  (forall k, (k <= last)%nat -> (point k <=? bound) = true)
  /\ (point (S last) <=? bound) = false.

End MoreVocabulary.

Section ChartVocabulary.
Context {T : Type} `{Number T}.

(** [data] is the mass-ratio curve with [n] points: its [k]-th point holds
    the label of the [k]-th value of [mu] and the result of [optimizeTMD]
    there. *)
Definition curve_of (label : T -> T) (fuel : nat) (params : App.SystemParams T)
    (n : nat) (data : list (App.MassRatioDataPoint T)) : Prop :=
  length data = n
  /\ forall k, (k < n)%nat ->
       exists r, optimizeTMD fuel (curve_point k) (App.zeta1 params) = Some r
         /\ nth_error data k
            = Some (App.mkMassRatioDataPoint (label (curve_point k))
                      (minPeakAmp r) (f_opt r) (zeta2_opt r)).

(** [data] is the frequency chart with [n] points for the pair [f_opt],
    [zeta2_opt]: its [k]-th point is the object of lines 50-62 at the [k]-th
    value of [g]. *)
Definition chart_of (label : T -> T) (params : App.SystemParams T) (f_opt zeta2_opt : T)
    (n : nat) (data : list (App.FrequencyDataPoint T)) : Prop :=
  data = map (fun k => App.frequencyPoint label params f_opt zeta2_opt (chart_point k))
           (seq 0 n).

(** The nine values of a chart point that come from [getAmplitude]: the
    optimized curve and the eight sensitivity curves. *)
Definition tmd_curves (p : App.FrequencyDataPoint T) : list T :=
  [App.optimizedAmp p; App.z50 p; App.z80 p; App.z120 p; App.z150 p;
   App.f98 p; App.f99 p; App.f101 p; App.f102 p].

End ChartVocabulary.

Section ChartExactVocabulary.
Local Open Scope R_scope.

(** The values of [g] and of [mu] on entry to pass [k] of the loops of
    App.tsx, lines 49 and 73, in exact arithmetic. *)
Definition chartR (k : nat) : R := 5 / 10 + INR k * (15 / 1000).
Definition curveR (k : nat) : R := 1 / 100 + INR k * (5 / 1000).

End ChartExactVocabulary.

(** ** Vocabulary of binary64 values *)

Section Binary64Values.

(** A value of the specification of binary64 that is a not-a-number or has
    its sign bit clear. *)
Definition sf_nonneg (x : spec_float) : bool :=
  match x with
  | S754_nan => true
  | S754_zero s | S754_infinity s | S754_finite s _ _ => negb s
  end.

(** The sign of a value that is not a not-a-number is [s]. *)
Definition sf_sign_is (s : bool) (x : spec_float) : Prop :=
  match x with
  | S754_nan => True
  | S754_zero s' | S754_infinity s' | S754_finite s' _ _ => s' = s
  end.


Definition b64_nonneg (x : float) : Prop := sf_nonneg (Prim2SF x) = true.

(** A binary64 number that is not negative: a not-a-number, or a number
    [>= 0] ([Infinity] included). *)
Definition never_negative (x : float) : Prop :=
  x = PrimFloat.nan \/ PrimFloat.leb 0 x = true.

End Binary64Values.

Section MoreAmplitudeVocabulary.
Context {T : Type} `{Number T}.
Local Open Scope num_scope.


(** [r] is the largest amplitude among the first [n] samples of the scan of
    [findPeakAmplitude], started from 0: no sample is greater than [r], and
    [r] is the initial 0 or the amplitude at one of the samples.  (A sample
    whose amplitude is a not-a-number is greater than nothing.) *)
Definition is_peak_of_scan (f zeta2 mu zeta1 : T) (n : nat) (r : T) : Prop :=
  (forall k, (k < n)%nat -> (getAmplitude (scan_point k) f zeta2 mu zeta1 >? r) = false)
  /\ (r = #0
      \/ exists k, (k < n)%nat /\ r = getAmplitude (scan_point k) f zeta2 mu zeta1).

End MoreAmplitudeVocabulary.

Section NominalGrid.
Context {T : Type} `{Number T}.

(** The point [0.5 + 0.005 k] of the grid as a decimal literal: the number
    nearest to it, not the value the loop accumulates. *)
Definition nominal_point (k : nat) : T := dec (500 + 5 * Z.of_nat k) 3.

End NominalGrid.

Section SearchProbes.
Context {T : Type} `{Number T}.
Local Open Scope num_scope.

(** [gss_all_paths_probes depth ok phi tol a b x1 x2]: on every sequence of
    comparison outcomes the loop, entered with bracket [a, b] and probes
    [x1], [x2], is left within [depth] passes, and every probe it holds on
    the way satisfies [ok]. *)
Fixpoint gss_all_paths_probes (depth : nat) (ok : T -> bool) (phi tol a b x1 x2 : T) : bool :=
  ok x1 && ok x2
  && (if Math_abs (b - a) >? tol then
        match depth with
        | O => false
        | S d =>
            gss_all_paths_probes d ok phi tol a x2 (x2 - phi * (x2 - a)) x1
            && gss_all_paths_probes d ok phi tol x1 b x2 (x1 + phi * (b - x1))
        end
      else true).

End SearchProbes.

Section ZeroOrNan.

(** A zero or a not-a-number. *)
Definition sf_zero_or_nan (x : spec_float) : bool :=
  match x with
  | S754_zero _ | S754_nan => true
  | _ => false
  end.

End ZeroOrNan.

(** * The loops, in any arithmetic *)

Section Loops.
Context {T : Type} `{Number T}.
Local Open Scope num_scope.

Lemma gss_while_unfold fuel f phi tol s :
  gss_while fuel f phi tol s =
  if gss_guard tol s then
    match fuel with
    | O => None
    | S k => gss_while k f phi tol (gss_body f phi s)
    end
  else Some (gss_mid s).
Proof. destruct fuel; reflexivity. Qed.

Lemma gss_iter_S n f phi s :
  gss_iter (S n) f phi s = gss_body f phi (gss_iter n f phi s).
Proof.
  revert s. induction n as [|n IH]; intros s; [reflexivity|].
  change (gss_iter (S (S n)) f phi s) with (gss_iter (S n) f phi (gss_body f phi s)).
  rewrite IH. reflexivity.
Qed.

Lemma gss_iter_add (f : T -> T) (phi : T) (n m : nat) (s : GssVars T) :
  gss_iter (n + m) f phi s = gss_iter m f phi (gss_iter n f phi s).
Proof.
  revert s. induction n as [|n IH]; intros s; [reflexivity|].
  cbn [Nat.add gss_iter]. apply IH.
Qed.

(** The loop returns exactly when some state of the iteration falsifies the
    guard within the fuel; it then returns the midpoint of the first such
    state. *)
Lemma gss_while_returns f phi tol :
  forall k fuel s,
    (forall j, (j < k)%nat -> gss_guard tol (gss_iter j f phi s) = true) ->
    gss_guard tol (gss_iter k f phi s) = false ->
    (k <= fuel)%nat ->
    gss_while fuel f phi tol s = Some (gss_mid (gss_iter k f phi s)).
Proof.
  induction k as [|k IH]; intros fuel s Hlt Hk Hfuel.
  - rewrite gss_while_unfold. cbn [gss_iter] in Hk. rewrite Hk. reflexivity.
  - rewrite gss_while_unfold.
    pose proof (Hlt 0%nat ltac:(lia)) as G. cbn [gss_iter] in G. rewrite G.
    destruct fuel as [|fuel]; [lia|].
    cbn [gss_iter]. apply IH; [|assumption|lia].
    intros j Hj. apply (Hlt (S j)). lia.
Qed.

Lemma gss_while_starves f phi tol :
  forall fuel s,
    (forall j, (j <= fuel)%nat -> gss_guard tol (gss_iter j f phi s) = true) ->
    gss_while fuel f phi tol s = None.
Proof.
  induction fuel as [|fuel IH]; intros s Hg; rewrite gss_while_unfold;
    pose proof (Hg 0%nat ltac:(lia)) as G; cbn [gss_iter] in G; rewrite G.
  - reflexivity.
  - apply IH. intros j Hj. apply (Hg (S j)). lia.
Qed.

Lemma gss_while_inv f phi tol :
  forall fuel s r,
    gss_while fuel f phi tol s = Some r ->
    exists k, (k <= fuel)%nat
      /\ (forall j, (j < k)%nat -> gss_guard tol (gss_iter j f phi s) = true)
      /\ gss_guard tol (gss_iter k f phi s) = false
      /\ r = gss_mid (gss_iter k f phi s).
Proof.
  induction fuel as [|fuel IH]; intros s r; rewrite gss_while_unfold;
    destruct (gss_guard tol s) eqn:G; try discriminate.
  - intros [= <-]. exists 0%nat. repeat split; [lia|intros; lia|exact G].
  - intros E. destruct (IH _ _ E) as [k [Hk [Hlt [Hg Hr]]]].
    exists (S k). repeat split; [lia| |exact Hg|exact Hr].
    intros [|j] Hj; [exact G|]. apply Hlt. lia.
  - intros [= <-]. exists 0%nat. repeat split; [lia|intros; lia|exact G].
Qed.

(** More fuel never changes an answer. *)
Lemma gss_while_mono f phi tol fuel fuel' s r :
  gss_while fuel f phi tol s = Some r -> (fuel <= fuel')%nat ->
  gss_while fuel' f phi tol s = Some r.
Proof.
  intros E Hle. destruct (gss_while_inv _ _ _ _ _ _ E) as [k [Hk [Hlt [Hg ->]]]].
  apply gss_while_returns; [assumption|assumption|lia].
Qed.

Lemma first_false_or_all (P : nat -> bool) :
  forall n,
    (exists k, (k <= n)%nat /\ P k = false /\ forall j, (j < k)%nat -> P j = true)
    \/ (forall j, (j <= n)%nat -> P j = true).
Proof.
  induction n as [|n [[k [Hk [Hf Hlt]]]|Hall]].
  - destruct (P 0%nat) eqn:E.
    + right. intros j Hj. replace j with 0%nat by lia. exact E.
    + left. exists 0%nat. repeat split; [lia|exact E|intros; lia].
  - left. exists k. repeat split; [lia|exact Hf|exact Hlt].
  - destruct (P (S n)) eqn:E.
    + right. intros j Hj. destruct (Nat.eq_dec j (S n)) as [->|Hne]; [exact E|].
      apply Hall. lia.
    + left. exists (S n). repeat split; [lia|exact E|].
      intros j Hj. apply Hall. lia.
Qed.

Lemma first_false (P : nat -> bool) (n : nat) :
  P n = false ->
  exists k, (k <= n)%nat /\ P k = false /\ forall j, (j < k)%nat -> P j = true.
Proof.
  intros Hn. destruct (first_false_or_all P n) as [Hk|Hall]; [exact Hk|].
  rewrite Hall in Hn by lia. discriminate.
Qed.

End Loops.

(** * The coordinate descent, in any arithmetic *)

Section Descent.
Context {T : Type} `{Number T}.
Local Open Scope num_scope.

Lemma goldenSectionSearch_mono f lower upper tol fuel fuel' r :
  goldenSectionSearch fuel f lower upper tol = Some r -> (fuel <= fuel')%nat ->
  goldenSectionSearch fuel' f lower upper tol = Some r.
Proof. unfold goldenSectionSearch. apply gss_while_mono. Qed.

(** Two runs that both return agree, whatever fuel each was given. *)
Lemma goldenSectionSearch_fuel_irrelevant f lower upper tol fuel1 fuel2 r1 r2 :
  goldenSectionSearch fuel1 f lower upper tol = Some r1 ->
  goldenSectionSearch fuel2 f lower upper tol = Some r2 ->
  r1 = r2.
Proof.
  intros E1 E2.
  apply goldenSectionSearch_mono with (fuel' := Nat.max fuel1 fuel2) in E1; [|lia].
  apply goldenSectionSearch_mono with (fuel' := Nat.max fuel1 fuel2) in E2; [|lia].
  congruence.
Qed.

(** What a pass of the descent leaves behind: both coordinates come out of a
    golden-section search over the fixed boxes, and [currentVal] is the peak
    at the pair reached. *)
Lemma descent_for_result fuel mu zeta1 tol :
  forall r s s',
    descent_for fuel mu zeta1 tol (S r) s = Some s' ->
    (exists z, goldenSectionSearch fuel (fun testF => findPeakAmplitude testF z mu zeta1)
                 (dec 5 1) (dec 15 1) tol = Some (d_f s'))
    /\ goldenSectionSearch fuel (fun testZ2 => findPeakAmplitude (d_f s') testZ2 mu zeta1)
         (dec 1 2) (dec 5 1) tol = Some (d_zeta2 s')
    /\ d_currentVal s' = findPeakAmplitude (d_f s') (d_zeta2 s') mu zeta1
    /\ (d_passes s < d_passes s' <= d_passes s + S r)%nat.
Proof.
  induction r as [|r IH]; intros s s'; cbn [descent_for];
    destruct (goldenSectionSearch fuel _ (dec 5 1) (dec 15 1) tol) as [f|] eqn:Ef;
    try discriminate;
    destruct (goldenSectionSearch fuel _ (dec 1 2) (dec 5 1) tol) as [z2|] eqn:Ez;
    try discriminate;
    destruct (Math_abs _ <? tol).
  - intros [= <-]. cbn [d_f d_zeta2 d_currentVal d_passes].
    repeat split; eauto; lia.
  - intros [= <-]. cbn [d_f d_zeta2 d_currentVal d_passes].
    repeat split; eauto; lia.
  - intros [= <-]. cbn [d_f d_zeta2 d_currentVal d_passes].
    repeat split; eauto; lia.
  - intros E. apply IH in E. cbn [d_f d_zeta2 d_currentVal d_passes] in E.
    destruct E as (Hf & Hz & Hc & Hp). repeat split; auto; lia.
Qed.

(** The descent does not depend on the fuel it is given. *)
Lemma descent_for_fuel_irrelevant mu zeta1 tol fuel1 fuel2 :
  forall r s s1 s2,
    descent_for fuel1 mu zeta1 tol r s = Some s1 ->
    descent_for fuel2 mu zeta1 tol r s = Some s2 ->
    s1 = s2.
Proof.
  induction r as [|r IH]; intros s s1 s2; cbn [descent_for]; [congruence|].
  destruct (goldenSectionSearch fuel1 _ (dec 5 1) (dec 15 1) tol) as [f|] eqn:Ef1;
    [|discriminate].
  destruct (goldenSectionSearch fuel2 _ (dec 5 1) (dec 15 1) tol) as [f'|] eqn:Ef2;
    [|discriminate].
  assert (f' = f) as -> by (eapply goldenSectionSearch_fuel_irrelevant; eassumption).
  destruct (goldenSectionSearch fuel1 _ (dec 1 2) (dec 5 1) tol) as [z|] eqn:Ez1;
    [|discriminate].
  destruct (goldenSectionSearch fuel2 _ (dec 1 2) (dec 5 1) tol) as [z'|] eqn:Ez2;
    [|discriminate].
  assert (z' = z) as -> by (eapply goldenSectionSearch_fuel_irrelevant; eassumption).
  destruct (Math_abs _ <? tol); [congruence|]. apply IH.
Qed.

(** If every search over the two boxes returns, so does the descent. *)
Lemma descent_for_total fuel mu zeta1 tol :
  (forall h, exists r, goldenSectionSearch fuel h (dec 5 1) (dec 15 1) tol = Some r) ->
  (forall h, exists r, goldenSectionSearch fuel h (dec 1 2) (dec 5 1) tol = Some r) ->
  forall r s, exists s', descent_for fuel mu zeta1 tol r s = Some s'.
Proof.
  intros Hf Hz. induction r as [|r IH]; intros s; cbn [descent_for]; [eauto|].
  destruct (Hf (fun testF => findPeakAmplitude testF (d_zeta2 s) mu zeta1)) as [f ->].
  destruct (Hz (fun testZ2 => findPeakAmplitude f testZ2 mu zeta1)) as [z ->].
  destruct (Math_abs _ <? tol); eauto.
Qed.

Lemma optimizeTMD_of_run fuel mu zeta1 r :
  optimizeTMD fuel mu zeta1 = Some r <->
  exists s, optimizeTMD_run fuel mu zeta1 = Some s
    /\ r = mkResult (d_f s) (d_zeta2 s) (d_currentVal s).
Proof.
  unfold optimizeTMD. destruct (optimizeTMD_run fuel mu zeta1) as [s|]; split.
  - intros [= <-]. eauto.
  - intros (s' & [= <-] & ->). reflexivity.
  - discriminate.
  - intros (s' & E & _). discriminate.
Qed.

End Descent.

(** * Every path of the search at once

    The objective enters the loop of [goldenSectionSearch] only through the
    outcome of [f1 < f2]; the bracket and the probes evolve by arithmetic
    alone.  [gss_all_paths] follows both outcomes at every pass. *)

Section Paths.
Context {T : Type} `{Number T}.
Local Open Scope num_scope.

Lemma gss_all_paths_sound ok phi tol f :
  forall depth s,
    gss_all_paths depth ok phi tol (ga s) (gb s) (gx1 s) (gx2 s) = true ->
    forall fuel, (depth <= fuel)%nat ->
      exists r, gss_while fuel f phi tol s = Some r /\ ok r = true.
Proof.
  induction depth as [|depth IH]; intros s Hp fuel Hfuel;
    rewrite gss_while_unfold; unfold gss_guard;
    cbn [gss_all_paths] in Hp;
    destruct (Math_abs (gb s - ga s) >? tol); try discriminate.
  - eexists; split; [reflexivity|exact Hp].
  - destruct fuel as [|fuel]; [lia|].
    apply andb_true_iff in Hp. destruct Hp as [Hl Hr].
    apply IH; [|lia].
    unfold gss_body. destruct (gf1 s <? gf2 s); cbn [ga gb gx1 gx2]; assumption.
  - eexists; split; [reflexivity|exact Hp].
Qed.

Lemma goldenSectionSearch_all_paths ok lower upper tol depth :
  gss_all_paths depth ok gss_phi tol lower upper
    (upper - gss_phi * (upper - lower)) (lower + gss_phi * (upper - lower)) = true ->
  forall f fuel, (depth <= fuel)%nat ->
    exists r, goldenSectionSearch fuel f lower upper tol = Some r /\ ok r = true.
Proof.
  intros Hp f fuel Hfuel. unfold goldenSectionSearch.
  apply gss_all_paths_sound with (depth := depth); [exact Hp|exact Hfuel].
Qed.

End Paths.

(** * The scan of the peak finder, in any arithmetic *)

Section Scan.
Context {T : Type} `{Number T}.
Local Open Scope num_scope.

Lemma findPeak_for_fold (f zeta2 mu zeta1 : T) (last : nat) :
  scan_exits_after last ->
  forall n k m budget,
    (k + n = S last)%nat -> (n < budget)%nat ->
    findPeak_for budget f zeta2 mu zeta1 (scan_point k) m
    = fold_left (scan_update f zeta2 mu zeta1) (seq k n) m.
Proof.
  intros [Hin Hout].
  induction n as [|n IH]; intros k m budget Hk Hb;
    (destruct budget as [|budget]; [lia|]); cbn [findPeak_for seq fold_left].
  - replace k with (S last) by lia. rewrite Hout. reflexivity.
  - rewrite Hin by lia. cbv zeta.
    change (scan_point k + dec 5 3) with (scan_point (S k)).
    rewrite IH by lia. reflexivity.
Qed.

(** With the guard failing after 301 passes, [findPeakAmplitude] is the fold
    of the update over the scan points 0..300, and its budget is never what
    stops the loop. *)
Lemma findPeakAmplitude_fold (f zeta2 mu zeta1 : T) :
  scan_exits_after 300 ->
  findPeakAmplitude f zeta2 mu zeta1
  = fold_left (scan_update f zeta2 mu zeta1) (seq 0 301) #0.
Proof.
  intros Hexit. unfold findPeakAmplitude.
  change (dec 5 1) with (scan_point 0).
  apply findPeak_for_fold with (last := 300%nat); [exact Hexit|reflexivity|].
  unfold scanBudget. lia.
Qed.

End Scan.

(** * Exact arithmetic: the amplitude model *)

Section ExactFacts.
Local Open Scope R_scope.

Lemma Rltb_true (x y : R) : Rltb x y = true <-> x < y.
Proof. unfold Rltb; destruct (Rlt_dec x y); split; intros; try discriminate; auto; contradiction. Qed.

Lemma Rltb_false (x y : R) : Rltb x y = false <-> y <= x.
Proof.
  unfold Rltb; destruct (Rlt_dec x y); split; intros; try discriminate; auto; lra.
Qed.

Lemma Rleb_true (x y : R) : Rleb x y = true <-> x <= y.
Proof. unfold Rleb; destruct (Rle_dec x y); split; intros; try discriminate; auto; contradiction. Qed.

Lemma Rleb_false (x y : R) : Rleb x y = false <-> y < x.
Proof.
  unfold Rleb; destruct (Rle_dec x y); split; intros; try discriminate; auto; lra.
Qed.

Lemma Reqb_true (x y : R) : Reqb x y = true <-> x = y.
Proof. unfold Reqb; destruct (Req_dec_T x y); split; intros; try discriminate; auto; contradiction. Qed.

Lemma Reqb_false (x y : R) : Reqb x y = false <-> x <> y.
Proof. unfold Reqb; destruct (Req_dec_T x y); split; intros; try discriminate; auto; contradiction. Qed.

Lemma xsqrt_sumsq (x y : R) : xsqrt (Fin (x * x + y * y)) = Fin (sqrt (x * x + y * y)).
Proof.
  unfold xsqrt. replace (Rltb (x * x + y * y) 0) with false; [reflexivity|].
  symmetry; apply Rltb_false; nra.
Qed.

Lemma sqrt_sumsq_nonneg (x y : R) : 0 <= sqrt (x * x + y * y).
Proof. apply sqrt_pos. Qed.

Lemma sqrt_sumsq_zero (x y : R) : sqrt (x * x + y * y) = 0 <-> x = 0 /\ y = 0.
Proof.
  split.
  - intros E. apply sqrt_eq_0 in E; [|nra]. split; nra.
  - intros [-> ->]. replace (0 * 0 + 0 * 0) with 0 by ring. apply sqrt_0.
Qed.

Lemma denR_nonneg g f zeta2 mu zeta1 : 0 <= denR g f zeta2 mu zeta1.
Proof. apply sqrt_pos. Qed.

Lemma numR_nonneg g f zeta2 : 0 <= numR g f zeta2.
Proof. apply sqrt_pos. Qed.

(** On finite arguments every intermediate value of [getAmplitude] is finite:
    the source's expression evaluates to the guarded quotient of reals. *)
Lemma getAmplitude_exact (g f zeta2 mu zeta1 : R) :
  getAmplitude (Fin g) (Fin f) (Fin zeta2) (Fin mu) (Fin zeta1)
  = Fin (ampR g f zeta2 mu zeta1).
Proof.
  unfold getAmplitude, ampR, denR, numR, denPart1R, denPart2R, term1R, term2R.
  cbn [nadd nsub nmul ofZ exact xadd xsub xmul].
  rewrite !xsqrt_sumsq.
  cbn [neqb ndiv exact xeqb xdiv].
  destruct (Reqb _ 0); reflexivity.
Qed.

Lemma getOriginalAmplitude_exact (g zeta1 : R) :
  getOriginalAmplitude (Fin g) (Fin zeta1) = Fin (origR g zeta1).
Proof.
  unfold getOriginalAmplitude, Math_pow2, origR, denOrigR.
  cbn [nadd nsub nmul ofZ exact xadd xsub xmul].
  rewrite !xsqrt_sumsq.
  cbn [neqb ndiv exact xeqb xdiv].
  destruct (Reqb _ 0); reflexivity.
Qed.

Lemma ampR_nonneg g f zeta2 mu zeta1 : 0 <= ampR g f zeta2 mu zeta1.
Proof.
  unfold ampR. destruct (Reqb _ 0) eqn:E; [lra|].
  apply Reqb_false in E.
  pose proof (denR_nonneg g f zeta2 mu zeta1).
  pose proof (numR_nonneg g f zeta2).
  apply Rmult_le_pos; [assumption|]. apply Rlt_le, Rinv_0_lt_compat. lra.
Qed.

Lemma origR_nonneg g zeta1 : 0 <= origR g zeta1.
Proof.
  unfold origR. destruct (Reqb _ 0) eqn:E; [lra|].
  apply Reqb_false in E.
  assert (0 <= denOrigR g zeta1) by apply sqrt_pos.
  apply Rmult_le_pos; [lra|]. apply Rlt_le, Rinv_0_lt_compat. lra.
Qed.

(** ** Zero absorber mass *)




(** * Exact arithmetic: the peak finder *)

Lemma exact_dec (m e : Z) :
  (0 <= e)%Z -> @dec xreal _ m e = Fin (IZR m / IZR (10 ^ e)).
Proof.
  intros He. unfold dec. cbn [ndiv ofZ exact xdiv].
  assert (0 < IZR (10 ^ e)) by (apply IZR_lt, Z.pow_pos_nonneg; lia).
  replace (Reqb (IZR (10 ^ e)) 0) with false; [reflexivity|].
  symmetry; apply Reqb_false; lra.
Qed.

Lemma gridR_S k : gridR (S k) = gridR k + 5 / 1000.
Proof. unfold gridR. rewrite S_INR. lra. Qed.

Lemma gridR_300 : gridR 300 = 2.
Proof. unfold gridR. replace (INR 300) with 300 by (simpl; lra). lra. Qed.

Lemma gridR_le_2 k : gridR k <= 2 <-> (k <= 300)%nat.
Proof.
  unfold gridR. split; intros Hk.
  - apply INR_le. replace (INR 300) with 300 by (simpl; lra). lra.
  - apply le_INR in Hk. replace (INR 300) with 300 in Hk by (simpl; lra). lra.
Qed.

Lemma exact_scan_point k : @scan_point xreal _ k = Fin (gridR k).
Proof.
  induction k as [|k IH].
  - cbn [scan_point]. rewrite exact_dec by lia. unfold gridR.
    simpl INR. f_equal. change (10 ^ 1)%Z with 10%Z. lra.
  - cbn [scan_point]. rewrite IH, exact_dec by lia. rewrite gridR_S.
    change (10 ^ 3)%Z with 1000%Z. reflexivity.
Qed.

(** In exact arithmetic the guard [g <= 2.0] holds at the points 0..300 of
    the scan and fails at point 301. *)
Lemma exact_scan_exit :
  (forall k, (k <= 300)%nat -> nleb (@scan_point xreal _ k) (ofZ 2) = true)
  /\ nleb (@scan_point xreal _ 301) (ofZ 2) = false.
Proof.
  split.
  - intros k Hk. rewrite exact_scan_point. cbn [nleb ofZ exact xleb].
    apply Rleb_true, gridR_le_2, Hk.
  - rewrite exact_scan_point. cbn [nleb ofZ exact xleb].
    apply Rleb_false. apply Rnot_le_lt. intros Hc. apply gridR_le_2 in Hc. lia.
Qed.

Lemma xmax_update (a m : R) :
  (if xltb (Fin m) (Fin a) then Fin a else Fin m) = Fin (Rmax m a).
Proof.
  cbn [xltb]. destruct (Rltb m a) eqn:E.
  - apply Rltb_true in E. rewrite Rmax_right by lra. reflexivity.
  - apply Rltb_false in E. rewrite Rmax_left by lra. reflexivity.
Qed.

Lemma findPeak_for_exact (f zeta2 mu zeta1 : R) :
  forall n k m budget,
    (k + n = 301)%nat -> (n < budget)%nat ->
    findPeak_for budget (Fin f) (Fin zeta2) (Fin mu) (Fin zeta1) (Fin (gridR k)) (Fin m)
    = Fin (scanR n k f zeta2 mu zeta1 m).
Proof.
  induction n as [|n IH]; intros k m budget Hk Hb.
  - destruct budget as [|budget]; [lia|].
    cbn [findPeak_for scanR]. cbn [nleb ofZ exact xleb].
    replace (Rleb (gridR k) 2) with false; [reflexivity|].
    symmetry. apply Rleb_false. apply Rnot_le_lt. intros Hc.
    apply gridR_le_2 in Hc. lia.
  - destruct budget as [|budget]; [lia|].
    cbn [findPeak_for scanR]. cbn [nleb ofZ exact xleb].
    replace (Rleb (gridR k) 2) with true
      by (symmetry; apply Rleb_true, gridR_le_2; lia).
    rewrite getAmplitude_exact. cbn [nltb exact].
    rewrite xmax_update.
    rewrite exact_dec by lia. change (10 ^ 3)%Z with 1000%Z.
    cbn [nadd exact xadd]. rewrite <- gridR_S.
    apply IH; lia.
Qed.

Lemma findPeakAmplitude_exact (f zeta2 mu zeta1 : R) :
  findPeakAmplitude (Fin f) (Fin zeta2) (Fin mu) (Fin zeta1) = Fin (peakR f zeta2 mu zeta1).
Proof.
  unfold findPeakAmplitude, peakR.
  rewrite exact_dec by lia. change (10 ^ 1)%Z with 10%Z.
  change (@ofZ xreal exact 0) with (Fin 0).
  change (5 / 10) with (5 / 10). replace (5 / 10) with (gridR 0) by (unfold gridR; simpl; lra).
  apply findPeak_for_exact; unfold scanBudget; lia.
Qed.

Lemma scanR_ge_init n : forall k f zeta2 mu zeta1 m, m <= scanR n k f zeta2 mu zeta1 m.
Proof.
  induction n as [|n IH]; intros; cbn [scanR]; [lra|].
  eapply Rle_trans; [apply Rmax_l|apply IH].
Qed.

Lemma scanR_upper n : forall k f zeta2 mu zeta1 m i,
  (k <= i < k + n)%nat -> ampR (gridR i) f zeta2 mu zeta1 <= scanR n k f zeta2 mu zeta1 m.
Proof.
  induction n as [|n IH]; intros k f zeta2 mu zeta1 m i Hi; [lia|].
  cbn [scanR]. destruct (Nat.eq_dec i k) as [->|Hne].
  - eapply Rle_trans; [apply Rmax_r|apply scanR_ge_init].
  - apply IH. lia.
Qed.

Lemma scanR_attained n : forall k f zeta2 mu zeta1 m,
  scanR n k f zeta2 mu zeta1 m = m
  \/ exists i, (k <= i < k + n)%nat /\ scanR n k f zeta2 mu zeta1 m = ampR (gridR i) f zeta2 mu zeta1.
Proof.
  induction n as [|n IH]; intros k f zeta2 mu zeta1 m; cbn [scanR]; [left; reflexivity|].
  destruct (IH (S k) f zeta2 mu zeta1 (Rmax m (ampR (gridR k) f zeta2 mu zeta1))) as [E|[i [Hi E]]].
  - rewrite E. unfold Rmax. destruct (Rle_dec m (ampR (gridR k) f zeta2 mu zeta1)).
    + right. exists k. split; [lia|reflexivity].
    + left. reflexivity.
  - right. exists i. split; [lia|exact E].
Qed.

(** * Exact arithmetic: golden-section search *)

Lemma sqrt5_bounds : 2236 / 1000 < sqrt 5 < 22361 / 10000.
Proof.
  assert (Hs : sqrt 5 * sqrt 5 = 5) by (apply sqrt_sqrt; lra).
  assert (Hp : 0 <= sqrt 5) by apply sqrt_pos.
  split; nra.
Qed.

Lemma phiR_bounds : 618 / 1000 < phiR < 6181 / 10000.
Proof. unfold phiR. pose proof sqrt5_bounds. lra. Qed.

Lemma phiR_pos : 0 < phiR.
Proof. pose proof phiR_bounds. lra. Qed.

Lemma phiR_lt_1 : phiR < 1.
Proof. pose proof phiR_bounds. lra. Qed.

(** The identity that lets each pass reuse one probe: [phi^2 = 1 - phi]. *)
Lemma phiR_sqr : phiR * phiR = 1 - phiR.
Proof.
  unfold phiR.
  assert (Hs : sqrt 5 * sqrt 5 = 5) by (apply sqrt_sqrt; lra).
  field_simplify. nra.
Qed.

Lemma exact_gss_phi : @gss_phi xreal _ = Fin phiR.
Proof.
  unfold gss_phi, phiR. cbn [Math_sqrt ofZ exact xsqrt].
  replace (Rltb 5 0) with false by (symmetry; apply Rltb_false; lra).
  cbn [nsub ndiv exact xsub xdiv].
  replace (Reqb 2 0) with false by (symmetry; apply Reqb_false; lra).
  reflexivity.
Qed.

Lemma gss_inv_init f lower upper :
  gss_inv f (gss_init f (Fin lower) (Fin upper)).
Proof.
  unfold gss_init. rewrite exact_gss_phi.
  cbn [nadd nsub nmul exact xadd xsub xmul].
  constructor; reflexivity.
Qed.

Lemma gss_inv_shape f s :
  gss_inv f s <-> exists a b, s = gss_state f a b.
Proof.
  split.
  - intros [Ha Hb Hx1 Hx2 Hf1 Hf2].
    exists (xval (ga s)), (xval (gb s)). unfold gss_state.
    destruct s as [a b x1 x2 f1 f2]. cbn [ga gb gx1 gx2 gf1 gf2] in *.
    rewrite <- Hx1, <- Hx2, <- Hf1, <- Hf2, <- Ha, <- Hb. reflexivity.
  - intros (a & b & ->). constructor; reflexivity.
Qed.

Lemma gss_body_state f a b :
  gss_body f (Fin phiR) (gss_state f a b)
  = if nltb (f (Fin (b - phiR * (b - a)))) (f (Fin (a + phiR * (b - a))))
    then gss_state f a (a + phiR * (b - a))
    else gss_state f (b - phiR * (b - a)) b.
Proof.
  unfold gss_body, gss_state. cbn [ga gb gx1 gx2 gf1 gf2].
  assert (Hphi : phiR * (phiR * (b - a)) = (1 - phiR) * (b - a))
    by (rewrite <- Rmult_assoc, phiR_sqr; reflexivity).
  destruct (nltb _ _).
  - cbn [nadd nsub nmul exact xadd xsub xmul].
    replace (a + phiR * (a + phiR * (b - a) - a)) with (b - phiR * (b - a))
      by (ring_simplify; ring_simplify in Hphi; lra).
    reflexivity.
  - cbn [nadd nsub nmul exact xadd xsub xmul].
    replace (b - phiR * (b - (b - phiR * (b - a)))) with (a + phiR * (b - a))
      by (ring_simplify; ring_simplify in Hphi; lra).
    reflexivity.
Qed.

Lemma gss_body_exact f s :
  gss_inv f s ->
  gss_inv f (gss_body f (Fin phiR) s)
  /\ widthR (gss_body f (Fin phiR) s) = phiR * widthR s
  /\ (xval (ga (gss_body f (Fin phiR) s)) = xval (ga s)
        /\ xval (gb (gss_body f (Fin phiR) s)) = xval (gx2 s)
        /\ nltb (gf1 s) (gf2 s) = true
      \/ xval (ga (gss_body f (Fin phiR) s)) = xval (gx1 s)
        /\ xval (gb (gss_body f (Fin phiR) s)) = xval (gb s)
        /\ nltb (gf1 s) (gf2 s) = false).
Proof.
  intros Hs. apply gss_inv_shape in Hs. destruct Hs as (a & b & ->).
  rewrite gss_body_state.
  change (gf1 (gss_state f a b)) with (f (Fin (b - phiR * (b - a)))).
  change (gf2 (gss_state f a b)) with (f (Fin (a + phiR * (b - a)))).
  destruct (nltb _ _); (split; [apply gss_inv_shape; eauto|]);
    unfold widthR; cbn [gss_state ga gb gx1 gx2 xval]; (split; [ring|]).
  - left. repeat split; reflexivity.
  - right. repeat split; reflexivity.
Qed.

Lemma gss_iter_inv f s n :
  gss_inv f s -> gss_inv f (gss_iter n f (Fin phiR) s).
Proof.
  intros Hs. induction n as [|n IH]; [exact Hs|].
  rewrite gss_iter_S. apply gss_body_exact, IH.
Qed.

(** Each pass multiplies the width of the bracket by [phi]. *)
Lemma gss_iter_width f s n :
  gss_inv f s -> widthR (gss_iter n f (Fin phiR) s) = phiR ^ n * widthR s.
Proof.
  intros Hs. induction n as [|n IH]; [simpl; ring|].
  rewrite gss_iter_S.
  destruct (gss_body_exact f _ (gss_iter_inv f s n Hs)) as [_ [-> _]].
  rewrite IH. simpl. ring.
Qed.

(** The bracket only shrinks: it stays inside the bracket it started from. *)
Lemma gss_body_nested f s :
  gss_inv f s -> xval (ga s) <= xval (gb s) ->
  xval (ga s) <= xval (ga (gss_body f (Fin phiR) s))
  /\ xval (ga (gss_body f (Fin phiR) s)) <= xval (gb (gss_body f (Fin phiR) s))
  /\ xval (gb (gss_body f (Fin phiR) s)) <= xval (gb s).
Proof.
  intros Hs Hab.
  destruct (gss_body_exact f s Hs) as [_ [_ Hcase]].
  pose proof phiR_bounds as Hphi.
  destruct Hs as [Ha Hb Hx1 Hx2 Hf1 Hf2].
  destruct Hcase as [[-> [-> _]]|[-> [-> _]]].
  - rewrite Hx2. cbn [xval]. nra.
  - rewrite Hx1. cbn [xval]. nra.
Qed.

Lemma gss_iter_nested f s n :
  gss_inv f s -> xval (ga s) <= xval (gb s) ->
  xval (ga s) <= xval (ga (gss_iter n f (Fin phiR) s))
  /\ xval (ga (gss_iter n f (Fin phiR) s)) <= xval (gb (gss_iter n f (Fin phiR) s))
  /\ xval (gb (gss_iter n f (Fin phiR) s)) <= xval (gb s).
Proof.
  intros Hs Hab. induction n as [|n IH]; [cbn [gss_iter]; lra|].
  rewrite gss_iter_S.
  pose proof (gss_body_nested f _ (gss_iter_inv f s n Hs)) as Hn.
  lra.
Qed.

(** The guard and the returned midpoint on a state of the invariant. *)
Lemma gss_guard_exact f s tol :
  gss_inv f s ->
  gss_guard (Fin tol) s = Rltb tol (Rabs (widthR s)).
Proof.
  intros [Ha Hb _ _ _ _]. unfold gss_guard, widthR.
  rewrite Ha, Hb. reflexivity.
Qed.

Lemma gss_mid_exact f s :
  gss_inv f s -> gss_mid s = Fin ((xval (ga s) + xval (gb s)) / 2).
Proof.
  intros [Ha Hb _ _ _ _]. unfold gss_mid.
  rewrite Ha, Hb. cbn [nadd ndiv ofZ exact xadd xdiv xval].
  replace (Reqb 2 0) with false by (symmetry; apply Reqb_false; lra).
  reflexivity.
Qed.

(** The width of the bracket after [n] passes, started from [lower, upper]. *)
Lemma exact_gss_width f lower upper n :
  widthR (gss_iter n f (Fin phiR) (gss_init f (Fin lower) (Fin upper)))
  = phiR ^ n * (upper - lower).
Proof.
  rewrite gss_iter_width by apply gss_inv_init.
  unfold widthR, gss_init. rewrite exact_gss_phi. reflexivity.
Qed.

(** A positive tolerance is reached after finitely many passes; [k] is the
    first pass count at which the guard fails. *)
Lemma exact_gss_exit (w tol : R) :
  0 < tol ->
  exists k, Rabs (phiR ^ k * w) <= tol
    /\ forall j, (j < k)%nat -> tol < Rabs (phiR ^ j * w).
Proof.
  intros Htol.
  assert (Hy : 0 < tol / (Rabs w + 1)).
  { apply Rdiv_lt_0_compat; [exact Htol|]. pose proof (Rabs_pos w). lra. }
  destruct (pow_lt_1_zero phiR) with (y := tol / (Rabs w + 1)) as [N HN].
  - rewrite Rabs_pos_eq; [apply phiR_lt_1|apply Rlt_le, phiR_pos].
  - exact Hy.
  - assert (HNle : Rabs (phiR ^ N * w) <= tol).
    { rewrite Rabs_mult. specialize (HN N (Nat.le_refl N)).
      pose proof (Rabs_pos w) as Hw. pose proof (Rabs_pos (phiR ^ N)) as Hp.
      assert (Hb : Rabs (phiR ^ N) * Rabs w <= tol / (Rabs w + 1) * (Rabs w + 1)) by nra.
      unfold Rdiv in Hb. rewrite Rmult_assoc, Rinv_l, Rmult_1_r in Hb by lra. exact Hb. }
    destruct (first_false (fun j => Rltb tol (Rabs (phiR ^ j * w))) N) as [k [_ [Hk Hlt]]].
    + apply Rltb_false. exact HNle.
    + exists k. split; [apply Rltb_false, Hk|].
      intros j Hj. apply Rltb_true, Hlt, Hj.
Qed.

(** On a convex parabola a pass keeps the minimiser inside the bracket. *)
Lemma gss_body_parabola f c d x0 a b :
  0 < c -> (forall x, f (Fin x) = Fin (c * ((x - x0) * (x - x0)) + d)) ->
  a <= x0 <= b ->
  exists a' b', gss_body f (Fin phiR) (gss_state f a b) = gss_state f a' b'
    /\ a' <= x0 <= b'.
Proof.
  intros Hc Hf Hx0. rewrite gss_body_state, !Hf. cbn [nltb exact xltb].
  pose proof phiR_bounds as Hphi.
  destruct (Rltb _ _) eqn:D.
  - apply Rltb_true in D. exists a, (a + phiR * (b - a)). split; [reflexivity|].
    split; [lra|].
    apply Rnot_lt_le. intros Hlt.
    set (u := b - phiR * (b - a) - x0) in *.
    set (v := a + phiR * (b - a) - x0) in *.
    assert (Hv : v < 0) by (unfold v; lra).
    assert (Huv : u <= v) by (unfold u, v; nra).
    assert (Hsq : v * v <= u * u) by nra.
    assert (c * (v * v) <= c * (u * u)) by (apply Rmult_le_compat_l; lra).
    lra.
  - apply Rltb_false in D. exists (b - phiR * (b - a)), b. split; [reflexivity|].
    split; [|lra].
    apply Rnot_lt_le. intros Hlt.
    set (u := b - phiR * (b - a) - x0) in *.
    set (v := a + phiR * (b - a) - x0) in *.
    assert (Hu : 0 < u) by (unfold u; lra).
    assert (Hw : 0 < b - a) by (unfold u in Hu; nra).
    assert (Huv : u < v) by (unfold u, v; nra).
    assert (Hsq : u * u < v * v) by nra.
    assert (c * (u * u) < c * (v * v)) by (apply Rmult_lt_compat_l; lra).
    lra.
Qed.

Lemma gss_iter_parabola f c d x0 :
  0 < c -> (forall x, f (Fin x) = Fin (c * ((x - x0) * (x - x0)) + d)) ->
  forall n a b, a <= x0 <= b ->
    xval (ga (gss_iter n f (Fin phiR) (gss_state f a b))) <= x0
    /\ x0 <= xval (gb (gss_iter n f (Fin phiR) (gss_state f a b))).
Proof.
  intros Hc Hf. induction n as [|n IH]; intros a b Hx0.
  - cbn [gss_iter gss_state ga gb xval]. exact Hx0.
  - cbn [gss_iter].
    destruct (gss_body_parabola f c d x0 a b Hc Hf Hx0) as (a' & b' & -> & Hx0').
    apply IH, Hx0'.
Qed.

Lemma gss_init_state f lower upper :
  gss_init f (Fin lower) (Fin upper) = gss_state f lower upper.
Proof.
  unfold gss_init, gss_state. rewrite exact_gss_phi. reflexivity.
Qed.

(** The search in exact arithmetic, from a finite bracket and with a positive
    tolerance: it leaves the loop after exactly [k] passes, where [k] is the
    first count with [phi^k * |upper - lower| <= tol], and returns the midpoint
    of the bracket reached. *)
Lemma exact_gss_run f lower upper tol :
  0 < tol ->
  exists k,
    let s := gss_iter k f (Fin phiR) (gss_init f (Fin lower) (Fin upper)) in
    gss_inv f s
    /\ Rabs (widthR s) <= tol
    /\ (forall j, (j < k)%nat ->
          tol < Rabs (widthR (gss_iter j f (Fin phiR) (gss_init f (Fin lower) (Fin upper)))))
    /\ (forall fuel, (k <= fuel)%nat ->
          goldenSectionSearch fuel f (Fin lower) (Fin upper) (Fin tol)
          = Some (Fin ((xval (ga s) + xval (gb s)) / 2)))
    /\ (forall fuel, (fuel < k)%nat ->
          goldenSectionSearch fuel f (Fin lower) (Fin upper) (Fin tol) = None).
Proof.
  intros Htol.
  destruct (exact_gss_exit (upper - lower) tol Htol) as [k [Hk Hlt]].
  exists k. cbv zeta.
  set (s0 := gss_init f (Fin lower) (Fin upper)).
  assert (Hinv : forall n, gss_inv f (gss_iter n f (Fin phiR) s0))
    by (intros n; apply gss_iter_inv, gss_inv_init).
  assert (Hguard : forall n, gss_guard (Fin tol) (gss_iter n f (Fin phiR) s0)
                             = Rltb tol (Rabs (phiR ^ n * (upper - lower)))).
  { intros n. rewrite (gss_guard_exact f) by apply Hinv.
    unfold s0. rewrite exact_gss_width. reflexivity. }
  split; [apply Hinv|].
  split; [unfold s0; rewrite exact_gss_width; exact Hk|].
  split; [intros j Hj; unfold s0; rewrite exact_gss_width; apply Hlt, Hj|].
  unfold goldenSectionSearch. rewrite exact_gss_phi. fold s0. split.
  - intros fuel Hfuel.
    rewrite <- (gss_mid_exact f) by apply Hinv.
    apply gss_while_returns; [|rewrite Hguard; apply Rltb_false, Hk|exact Hfuel].
    intros j Hj. rewrite Hguard. apply Rltb_true, Hlt, Hj.
  - intros fuel Hfuel. apply gss_while_starves.
    intros j Hj. rewrite Hguard. apply Rltb_true, Hlt. lia.
Qed.

(** * Exact arithmetic: the optimizer *)

Lemma phiR_pow20 : phiR ^ 20 <= 1 / 10000.
Proof.
  pose proof phiR_bounds as Hphi.
  apply Rle_trans with ((6181 / 10000) ^ 20).
  - apply pow_incr. lra.
  - simpl. lra.
Qed.

(** From a bracket no wider than 1 and with the tolerance [1e-4], twenty
    passes always suffice, and the value returned lies in the bracket. *)
Lemma exact_gss_box f lower upper :
  lower <= upper -> upper - lower <= 1 ->
  forall fuel, (20 <= fuel)%nat ->
    exists r, goldenSectionSearch fuel f (Fin lower) (Fin upper) (Fin (1 / 10000)) = Some (Fin r)
      /\ lower <= r <= upper.
Proof.
  intros Hlu Hw fuel Hfuel.
  destruct (exact_gss_run f lower upper (1 / 10000)) as (k & Hinv & Hk & Hlt & Hret & _); [lra|].
  cbv zeta in *.
  assert (Hk20 : (k <= 20)%nat).
  { destruct (le_lt_dec k 20) as [|Hgt]; [assumption|exfalso].
    specialize (Hlt 20%nat Hgt). rewrite exact_gss_width in Hlt.
    pose proof phiR_pow20 as Hp.
    assert (0 <= phiR ^ 20) by (apply pow_le, Rlt_le, phiR_pos).
    rewrite Rabs_pos_eq in Hlt by nra. nra. }
  eexists. split; [apply Hret; lia|].
  pose proof (gss_iter_nested f (gss_init f (Fin lower) (Fin upper)) k
                (gss_inv_init f lower upper)) as Hn.
  rewrite gss_init_state in *. cbn [gss_state ga gb xval] in Hn.
  specialize (Hn Hlu). lra.
Qed.

Lemma exact_tolerance : @dec xreal _ 1 4 = Fin (1 / 10000).
Proof. rewrite exact_dec by lia. reflexivity. Qed.

Lemma exact_box_f : @dec xreal _ 5 1 = Fin (5 / 10) /\ @dec xreal _ 15 1 = Fin (15 / 10).
Proof. split; rewrite exact_dec by lia; reflexivity. Qed.

Lemma exact_box_zeta2 : @dec xreal _ 1 2 = Fin (1 / 100) /\ @dec xreal _ 5 1 = Fin (5 / 10).
Proof. split; rewrite exact_dec by lia; reflexivity. Qed.

(** In exact arithmetic the optimizer returns for every pair of arguments
    (finite or not) as soon as each search may make twenty passes. *)
Lemma exact_optimizeTMD_run_total (mu zeta1 : xreal) fuel :
  (20 <= fuel)%nat -> exists s, optimizeTMD_run fuel mu zeta1 = Some s.
Proof.
  intros Hfuel. unfold optimizeTMD_run. cbv zeta.
  apply descent_for_total; intros h.
  - destruct exact_box_f as [-> ->]. rewrite exact_tolerance.
    destruct (exact_gss_box h (5 / 10) (15 / 10)) with (fuel := fuel) as (r & -> & _);
      [lra|lra|exact Hfuel|eauto].
  - destruct exact_box_zeta2 as [-> ->]. rewrite exact_tolerance.
    destruct (exact_gss_box h (1 / 100) (5 / 10)) with (fuel := fuel) as (r & -> & _);
      [lra|lra|exact Hfuel|eauto].
Qed.

(** The pair returned lies in the two search boxes. *)
Lemma exact_optimizeTMD_run_box (mu zeta1 : xreal) fuel s :
  optimizeTMD_run fuel mu zeta1 = Some s ->
  exists f zeta2, d_f s = Fin f /\ d_zeta2 s = Fin zeta2
    /\ 5 / 10 <= f <= 15 / 10 /\ 1 / 100 <= zeta2 <= 5 / 10.
Proof.
  unfold optimizeTMD_run. cbv zeta. intros E.
  apply descent_for_result in E. destruct E as ((z & Ef) & Ez & _ & _).
  destruct exact_box_f as [Hl Hu]. rewrite Hl, Hu, exact_tolerance in Ef.
  destruct exact_box_zeta2 as [Hl' Hu']. rewrite Hl', Hu', exact_tolerance in Ez.
  destruct (exact_gss_box (fun testF => findPeakAmplitude testF z mu zeta1)
              (5 / 10) (15 / 10)) with (fuel := Nat.max fuel 20) as (f & Ef' & Hf);
    [lra|lra|lia|].
  destruct (exact_gss_box (fun testZ2 => findPeakAmplitude (d_f s) testZ2 mu zeta1)
              (1 / 100) (5 / 10)) with (fuel := Nat.max fuel 20) as (z2 & Ez' & Hz);
    [lra|lra|lia|].
  exists f, z2.
  split; [eapply goldenSectionSearch_fuel_irrelevant; eassumption|].
  split; [eapply goldenSectionSearch_fuel_irrelevant; eassumption|].
  split; assumption.
Qed.

End ExactFacts.

(** * Binary64: what the JavaScript engine computes *)

Section Binary64Facts.
Local Open Scope float_scope.

(** The literals of the source, as the parser rounds them. *)
Lemma b64_literals :
  @dec float _ 5 1 = 0.5 /\ @dec float _ 5 3 = 0.005 /\ @dec float _ 1 4 = 1e-4
  /\ @dec float _ 15 1 = 1.5 /\ @dec float _ 1 2 = 0.01
  /\ @ofZ float _ 2 = 2.0 /\ @ofZ float _ 100 = 100 /\ @gss_phi float _ = 0.6180339887498949.
Proof. vm_compute. repeat split; reflexivity. Qed.

(** The scan makes 301 passes in binary64 as well; the accumulated sum drifts
    from the nominal grid, and the last point sampled is just below [2.0]. *)
Lemma b64_scan_exit : @scan_exits_after float _ 300.
Proof.
  split.
  - assert (Hall : forallb (fun k => nleb (@scan_point float _ k) (ofZ 2)) (seq 0 301) = true)
      by (vm_compute; reflexivity).
    intros k Hk. rewrite forallb_forall in Hall. apply Hall.
    apply in_seq. lia.
  - vm_compute. reflexivity.
Qed.

Lemma b64_scan_last : @scan_point float _ 300 = 1.9999999999999791.
Proof. vm_compute. reflexivity. Qed.

Lemma b64_gss_paths_f :
  gss_all_paths 20 (in_box 0.5 1.5) gss_phi (dec 1 4) (dec 5 1) (dec 15 1)
    (nsub (dec 15 1) (nmul gss_phi (nsub (dec 15 1) (dec 5 1))))
    (nadd (dec 5 1) (nmul gss_phi (nsub (dec 15 1) (dec 5 1)))) = true.
Proof. vm_compute. reflexivity. Qed.

Lemma b64_gss_paths_zeta2 :
  gss_all_paths 20 (in_box 0.01 0.5) gss_phi (dec 1 4) (dec 1 2) (dec 5 1)
    (nsub (dec 5 1) (nmul gss_phi (nsub (dec 5 1) (dec 1 2))))
    (nadd (dec 1 2) (nmul gss_phi (nsub (dec 5 1) (dec 1 2)))) = true.
Proof. vm_compute. reflexivity. Qed.

(** In binary64 the two searches of the optimizer return within twenty
    passes for every objective, with a value inside their box. *)
Lemma b64_gss_f (h : float -> float) fuel :
  (20 <= fuel)%nat ->
  exists r, goldenSectionSearch fuel h (dec 5 1) (dec 15 1) (dec 1 4) = Some r
    /\ in_box 0.5 1.5 r = true.
Proof. intros Hfuel. apply goldenSectionSearch_all_paths with (depth := 20%nat); [exact b64_gss_paths_f|exact Hfuel]. Qed.

Lemma b64_gss_zeta2 (h : float -> float) fuel :
  (20 <= fuel)%nat ->
  exists r, goldenSectionSearch fuel h (dec 1 2) (dec 5 1) (dec 1 4) = Some r
    /\ in_box 0.01 0.5 r = true.
Proof. intros Hfuel. apply goldenSectionSearch_all_paths with (depth := 20%nat); [exact b64_gss_paths_zeta2|exact Hfuel]. Qed.

Lemma b64_optimizeTMD_run_total (mu zeta1 : float) fuel :
  (20 <= fuel)%nat -> exists s, optimizeTMD_run fuel mu zeta1 = Some s.
Proof.
  intros Hfuel. unfold optimizeTMD_run. cbv zeta.
  apply descent_for_total; intros h.
  - destruct (b64_gss_f h fuel Hfuel) as (r & -> & _). eauto.
  - destruct (b64_gss_zeta2 h fuel Hfuel) as (r & -> & _). eauto.
Qed.

Lemma b64_optimizeTMD_run_box (mu zeta1 : float) fuel s :
  optimizeTMD_run fuel mu zeta1 = Some s ->
  in_box 0.5 1.5 (d_f s) = true /\ in_box 0.01 0.5 (d_zeta2 s) = true.
Proof.
  unfold optimizeTMD_run. cbv zeta. intros E.
  apply descent_for_result in E. destruct E as ((z & Ef) & Ez & _ & _).
  destruct (b64_gss_f (fun testF => findPeakAmplitude testF z mu zeta1) (Nat.max fuel 20))
    as (f & Ef' & Hf); [lia|].
  destruct (b64_gss_zeta2 (fun testZ2 => findPeakAmplitude (d_f s) testZ2 mu zeta1) (Nat.max fuel 20))
    as (z2 & Ez' & Hz); [lia|].
  rewrite (goldenSectionSearch_fuel_irrelevant _ _ _ _ _ _ _ _ Ef Ef').
  rewrite (goldenSectionSearch_fuel_irrelevant _ _ _ _ _ _ _ _ Ez Ez').
  split; assumption.
Qed.

End Binary64Facts.

(** * Laws of binary64 arithmetic *)

Section SpecFloatLaws.
Variables prec emax : Z.

Lemma binary_round_aux_sign s m e l :
  sf_sign_is s (binary_round_aux prec emax s m e l).
Proof.
  unfold binary_round_aux.
  destruct (shr_fexp prec emax m e l) as [mrs' e'].
  destruct (shr_fexp prec emax _ e' loc_Exact) as [mrs'' e''].
  destruct (shr_m mrs''); [reflexivity| |exact I].
  destruct (Z.leb e'' (Z.sub emax prec)); reflexivity.
Qed.

Lemma binary_round_sign s m e : sf_sign_is s (binary_round prec emax s m e).
Proof.
  unfold binary_round. destruct (shl_align m e _) as [mz ez].
  apply binary_round_aux_sign.
Qed.

Lemma sf_sign_nonneg x : sf_sign_is false x -> sf_nonneg x = true.
Proof. destruct x; cbn; intros; subst; reflexivity. Qed.

Lemma SFmul_self_nonneg x : sf_nonneg (SFmul prec emax x x) = true.
Proof.
  destruct x as [s|s| |s m e]; cbn [SFmul sf_nonneg]; try rewrite xorb_nilpotent;
    try reflexivity.
  apply sf_sign_nonneg, binary_round_aux_sign.
Qed.

Lemma SFadd_nonneg x y :
  sf_nonneg x = true -> sf_nonneg y = true -> sf_nonneg (SFadd prec emax x y) = true.
Proof.
  destruct x as [[|]|[|]| |[|] mx ex], y as [[|]|[|]| |[|] my ey];
    cbn [sf_nonneg negb]; try discriminate; intros _ _; try reflexivity.
  cbn [SFadd cond_Zopp]. cbv zeta.
  destruct (shl_align mx ex _) as [a ea], (shl_align my ey _) as [b eb].
  cbn [fst Z.add binary_normalize].
  apply sf_sign_nonneg, binary_round_sign.
Qed.

Lemma SFsqrt_nonneg x : sf_nonneg x = true -> sf_nonneg (SFsqrt prec emax x) = true.
Proof.
  destruct x as [[|]|[|]| |[|] m e]; cbn [sf_nonneg negb]; try discriminate; intros _;
    try reflexivity.
  cbn [SFsqrt]. destruct (SFsqrt_core_binary prec emax (Zpos m) e) as [[mz ez] lz].
  apply sf_sign_nonneg, binary_round_aux_sign.
Qed.

Lemma SFdiv_nonneg x y :
  sf_nonneg x = true -> sf_nonneg y = true -> sf_nonneg (SFdiv prec emax x y) = true.
Proof.
  destruct x as [[|]|[|]| |[|] mx ex], y as [[|]|[|]| |[|] my ey];
    cbn [sf_nonneg negb]; try discriminate; intros _ _; try reflexivity.
  cbn [SFdiv xorb]. destruct (SFdiv_core_binary prec emax (Zpos mx) ex (Zpos my) ey) as [[mz ez] lz].
  apply sf_sign_nonneg, binary_round_aux_sign.
Qed.

(** ** The order *)

Lemma SFltb_irrefl x : SFltb x x = false.
Proof.
  destruct x as [[|]|[|]| |[|] m e]; try reflexivity;
    unfold SFltb, SFcompare; rewrite Z.compare_refl, Pos.compare_cont_refl; reflexivity.
Qed.

Lemma pos_cont_lt_trans a b c :
  Pos.compare_cont Eq a b = Lt -> Pos.compare_cont Eq b c = Lt -> Pos.compare_cont Eq a c = Lt.
Proof.
  change (Pos.compare_cont Eq) with Pos.compare. rewrite !Pos.compare_lt_iff.
  apply Pos.lt_trans.
Qed.

Lemma pos_cont_gt_trans a b c :
  Pos.compare_cont Eq a b = Gt -> Pos.compare_cont Eq b c = Gt -> Pos.compare_cont Eq a c = Gt.
Proof.
  change (Pos.compare_cont Eq) with Pos.compare. rewrite !Pos.compare_gt_iff.
  intros H1 H2. exact (Pos.lt_trans _ _ _ H2 H1).
Qed.

Lemma SFltb_trans x y z : SFltb x y = true -> SFltb y z = true -> SFltb x z = true.
Proof.
  destruct x as [[|]|[|]| |[|] mx ex], y as [[|]|[|]| |[|] my ey], z as [[|]|[|]| |[|] mz ez];
    unfold SFltb, SFcompare; try (intros; discriminate); try (intros; reflexivity).
  - destruct (Z.compare_spec ex ey) as [E1|E1|E1], (Z.compare_spec ey ez) as [E2|E2|E2],
      (Z.compare_spec ex ez) as [E3|E3|E3];
      try (intros; discriminate); try (intros; reflexivity); try lia.
    destruct (Pos.compare_cont Eq mx my) eqn:C1; cbn [CompOpp]; try discriminate.
    destruct (Pos.compare_cont Eq my mz) eqn:C2; cbn [CompOpp]; try discriminate.
    rewrite (pos_cont_gt_trans _ _ _ C1 C2). reflexivity.
  - destruct (Z.compare_spec ex ey) as [E1|E1|E1], (Z.compare_spec ey ez) as [E2|E2|E2],
      (Z.compare_spec ex ez) as [E3|E3|E3];
      try (intros; discriminate); try (intros; reflexivity); try lia.
    destruct (Pos.compare_cont Eq mx my) eqn:C1; try discriminate.
    destruct (Pos.compare_cont Eq my mz) eqn:C2; try discriminate.
    rewrite (pos_cont_lt_trans _ _ _ C1 C2). reflexivity.
Qed.

Lemma SFleb_zero_nonneg x :
  sf_nonneg x = true -> x <> S754_nan -> SFleb (S754_zero false) x = true.
Proof.
  destruct x as [[|]|[|]| |[|] m e]; cbn [sf_nonneg negb]; try discriminate;
    intros _ Hn; try reflexivity.
  contradiction.
Qed.

End SpecFloatLaws.

Section Binary64Laws.

Lemma b64_Prim2SF_zero : Prim2SF 0%float = S754_zero false.
Proof. reflexivity. Qed.

Lemma b64_is_nan x : Prim2SF x = S754_nan -> x = PrimFloat.nan.
Proof. intros E. apply Prim2SF_inj. rewrite E. reflexivity. Qed.

Lemma b64_ltb_irrefl (x : float) : PrimFloat.ltb x x = false.
Proof. rewrite FloatAxioms.ltb_spec. apply SFltb_irrefl. Qed.

Lemma b64_ltb_trans (x y z : float) :
  PrimFloat.ltb x y = true -> PrimFloat.ltb y z = true -> PrimFloat.ltb x z = true.
Proof. rewrite !FloatAxioms.ltb_spec. apply SFltb_trans. Qed.

Lemma b64_mul_self_nonneg (x : float) : b64_nonneg (PrimFloat.mul x x).
Proof. unfold b64_nonneg. rewrite FloatAxioms.mul_spec. apply SFmul_self_nonneg. Qed.

Lemma b64_add_nonneg (x y : float) :
  b64_nonneg x -> b64_nonneg y -> b64_nonneg (PrimFloat.add x y).
Proof. unfold b64_nonneg. rewrite FloatAxioms.add_spec. apply SFadd_nonneg. Qed.

Lemma b64_sqrt_nonneg (x : float) : b64_nonneg x -> b64_nonneg (PrimFloat.sqrt x).
Proof. unfold b64_nonneg. rewrite FloatAxioms.sqrt_spec. apply SFsqrt_nonneg. Qed.

Lemma b64_div_nonneg (x y : float) :
  b64_nonneg x -> b64_nonneg y -> b64_nonneg (PrimFloat.div x y).
Proof. unfold b64_nonneg. rewrite FloatAxioms.div_spec. apply SFdiv_nonneg. Qed.

Lemma b64_sqrt_sumsq_nonneg (x y : float) :
  b64_nonneg (PrimFloat.sqrt (PrimFloat.add (PrimFloat.mul x x) (PrimFloat.mul y y))).
Proof. apply b64_sqrt_nonneg, b64_add_nonneg; apply b64_mul_self_nonneg. Qed.

Lemma b64_nonneg_never_negative (x : float) : b64_nonneg x -> never_negative x.
Proof.
  unfold b64_nonneg, never_negative. intros Hx.
  destruct (Prim2SF x) as [s|s| |s m e] eqn:E.
  - right. rewrite FloatAxioms.leb_spec, E, b64_Prim2SF_zero. apply SFleb_zero_nonneg; [exact Hx|discriminate].
  - right. rewrite FloatAxioms.leb_spec, E, b64_Prim2SF_zero. apply SFleb_zero_nonneg; [exact Hx|discriminate].
  - left. apply b64_is_nan, E.
  - right. rewrite FloatAxioms.leb_spec, E, b64_Prim2SF_zero. apply SFleb_zero_nonneg; [exact Hx|discriminate].
Qed.

End Binary64Laws.

(** * The amplitudes and the peak finder in binary64 *)

Section ScanMaximum.
Context {T : Type} `{Number T}.
Hypothesis lt_irrefl : forall x : T, nltb x x = false.
Hypothesis lt_trans : forall x y z : T, nltb x y = true -> nltb y z = true -> nltb x z = true.
Local Open Scope num_scope.

Lemma scan_update_keeps_bound f zeta2 mu zeta1 (a : T) :
  forall l m, (m <? a) = false ->
    (fold_left (scan_update f zeta2 mu zeta1) l m <? a) = false.
Proof.
  induction l as [|k l IH]; intros m Hm; cbn [fold_left]; [exact Hm|].
  apply IH. unfold scan_update. cbv zeta.
  destruct (getAmplitude (scan_point k) f zeta2 mu zeta1 >? m) eqn:E; [|exact Hm].
  destruct (getAmplitude (scan_point k) f zeta2 mu zeta1 <? a) eqn:E'; [|reflexivity].
  rewrite (lt_trans _ _ _ E E') in Hm. discriminate.
Qed.

Lemma scan_fold_upper f zeta2 mu zeta1 :
  forall l m k, In k l ->
    (getAmplitude (scan_point k) f zeta2 mu zeta1
       >? fold_left (scan_update f zeta2 mu zeta1) l m) = false.
Proof.
  induction l as [|j l IH]; intros m k Hin; [contradiction|].
  cbn [fold_left]. destruct Hin as [->|Hin]; [|apply IH, Hin].
  apply scan_update_keeps_bound. unfold scan_update. cbv zeta.
  destruct (getAmplitude (scan_point k) f zeta2 mu zeta1 >? m) eqn:E; [apply lt_irrefl|exact E].
Qed.

Lemma scan_fold_attained f zeta2 mu zeta1 :
  forall l m,
    fold_left (scan_update f zeta2 mu zeta1) l m = m
    \/ exists k, In k l
         /\ fold_left (scan_update f zeta2 mu zeta1) l m
            = getAmplitude (scan_point k) f zeta2 mu zeta1.
Proof.
  induction l as [|j l IH]; intros m; cbn [fold_left]; [left; reflexivity|].
  destruct (IH (scan_update f zeta2 mu zeta1 m j)) as [E|(k & Hk & E)].
  - rewrite E. unfold scan_update. cbv zeta.
    destruct (getAmplitude (scan_point j) f zeta2 mu zeta1 >? m).
    + right. exists j. split; [left; reflexivity|reflexivity].
    + left. reflexivity.
  - right. exists k. split; [right; exact Hk|exact E].
Qed.

Lemma findPeakAmplitude_is_peak f zeta2 mu zeta1 :
  scan_exits_after 300 ->
  is_peak_of_scan f zeta2 mu zeta1 301 (findPeakAmplitude f zeta2 mu zeta1).
Proof.
  intros Hexit. rewrite (findPeakAmplitude_fold f zeta2 mu zeta1 Hexit). split.
  - intros k Hk. apply scan_fold_upper. apply in_seq. lia.
  - destruct (scan_fold_attained f zeta2 mu zeta1 (seq 0 301) #0) as [E|(k & Hk & E)].
    + left. exact E.
    + right. exists k. apply in_seq in Hk. split; [lia|exact E].
Qed.

(** An invariant of the running maximum. *)
Lemma scan_fold_invariant f zeta2 mu zeta1 (P : T -> Prop) :
  (forall k m, (getAmplitude (scan_point k) f zeta2 mu zeta1 >? m) = true ->
     P (getAmplitude (scan_point k) f zeta2 mu zeta1)) ->
  forall l m, P m -> P (fold_left (scan_update f zeta2 mu zeta1) l m).
Proof.
  intros Hamp. induction l as [|k l IH]; intros m Hm; cbn [fold_left]; [exact Hm|].
  apply IH. unfold scan_update. cbv zeta.
  destruct (getAmplitude (scan_point k) f zeta2 mu zeta1 >? m) eqn:E; [|exact Hm].
  exact (Hamp k m E).
Qed.

End ScanMaximum.

Section Binary64Amplitudes.

Lemma b64_nonneg_100 : b64_nonneg (@ofZ float _ 100).
Proof. reflexivity. Qed.

Lemma b64_nonneg_1 : b64_nonneg (@ofZ float _ 1).
Proof. reflexivity. Qed.

Lemma b64_nonneg_0 : b64_nonneg (@ofZ float _ 0).
Proof. reflexivity. Qed.

Lemma b64_getAmplitude_nonneg (g f zeta2 mu zeta1 : float) :
  b64_nonneg (getAmplitude g f zeta2 mu zeta1).
Proof.
  unfold getAmplitude. cbv zeta.
  destruct (neqb _ (ofZ 0)); [exact b64_nonneg_100|].
  apply b64_div_nonneg; apply b64_sqrt_sumsq_nonneg.
Qed.

Lemma b64_getOriginalAmplitude_nonneg (g zeta1 : float) :
  b64_nonneg (getOriginalAmplitude g zeta1).
Proof.
  unfold getOriginalAmplitude, Math_pow2. cbv zeta.
  destruct (neqb _ (ofZ 0)); [exact b64_nonneg_100|].
  apply b64_div_nonneg; [exact b64_nonneg_1|apply b64_sqrt_sumsq_nonneg].
Qed.

Lemma b64_ltb_not_nan (x y : float) : PrimFloat.ltb x y = true -> y <> PrimFloat.nan.
Proof.
  intros E ->. rewrite FloatAxioms.ltb_spec in E.
  change (Prim2SF PrimFloat.nan) with S754_nan in E.
  destruct (Prim2SF x); discriminate.
Qed.

Lemma b64_findPeakAmplitude_nonneg (f zeta2 mu zeta1 : float) :
  PrimFloat.leb 0 (findPeakAmplitude f zeta2 mu zeta1) = true.
Proof.
  assert (HP : b64_nonneg (findPeakAmplitude f zeta2 mu zeta1)
               /\ findPeakAmplitude f zeta2 mu zeta1 <> PrimFloat.nan).
  { rewrite (findPeakAmplitude_fold f zeta2 mu zeta1 b64_scan_exit).
    apply (scan_fold_invariant f zeta2 mu zeta1
             (fun r => b64_nonneg r /\ r <> PrimFloat.nan)).
    - intros k m E. split; [apply b64_getAmplitude_nonneg|].
      exact (b64_ltb_not_nan _ _ E).
    - split; [exact b64_nonneg_0|]. intros E. apply (f_equal Prim2SF) in E. vm_compute in E. discriminate. }
  destruct HP as [Hn Hnan].
  destruct (b64_nonneg_never_negative _ Hn) as [E|E]; [contradiction|exact E].
Qed.

(** ** Zero absorber mass *)





End Binary64Amplitudes.
(** * The claims about the amplitude model and the peak finder *)

Section AmplitudeClaims.
Local Open Scope R_scope.





(** C4.  The result of [getAmplitude] is [num / den] unless [den], the square
    root of [denPart1^2 + denPart2^2], is zero, and then it is exactly the
    sentinel 100; likewise [getOriginalAmplitude] with numerator 1.  In exact
    arithmetic the value is finite in both cases; in binary64 the branch is
    taken on the computed [den]. *)
Theorem zero_denominator_sentinel :
  (forall g f zeta2 mu zeta1 : R,
      (denR g f zeta2 mu zeta1 = 0 ->
         getAmplitude (Fin g) (Fin f) (Fin zeta2) (Fin mu) (Fin zeta1) = Fin 100)
      /\ (denR g f zeta2 mu zeta1 <> 0 ->
         getAmplitude (Fin g) (Fin f) (Fin zeta2) (Fin mu) (Fin zeta1)
         = Fin (numR g f zeta2 / denR g f zeta2 mu zeta1))
      /\ (denOrigR g zeta1 = 0 -> getOriginalAmplitude (Fin g) (Fin zeta1) = Fin 100)
      /\ (denOrigR g zeta1 <> 0 ->
         getOriginalAmplitude (Fin g) (Fin zeta1) = Fin (1 / denOrigR g zeta1)))
  /\ (forall g f zeta2 mu zeta1 : float,
      getAmplitude g f zeta2 mu zeta1
      = (if PrimFloat.eqb (amplitude_den g f zeta2 mu zeta1) 0%float then 100%float
         else PrimFloat.div (amplitude_num g f zeta2) (amplitude_den g f zeta2 mu zeta1))
      /\ getOriginalAmplitude g zeta1
      = (if PrimFloat.eqb (original_den g zeta1) 0%float then 100%float
         else PrimFloat.div 1%float (original_den g zeta1))).
Proof.
  split.
  - intros g f zeta2 mu zeta1.
    rewrite getAmplitude_exact, getOriginalAmplitude_exact. unfold ampR, origR.
    repeat split; intros Hd.
    + apply Reqb_true in Hd. rewrite Hd. reflexivity.
    + apply Reqb_false in Hd. rewrite Hd. reflexivity.
    + apply Reqb_true in Hd. rewrite Hd. reflexivity.
    + apply Reqb_false in Hd. rewrite Hd. reflexivity.
  - intros g f zeta2 mu zeta1. split; reflexivity.
Qed.

(** C5 (as amended).  [findPeakAmplitude f zeta2 mu zeta1] is the largest
    amplitude among the 301 samples of its loop, [g_0 = 0.5] and
    [g_(k+1) = g_k + 0.005]: no sample is greater, and the result is the
    amplitude at one of them (or the initial 0).  In exact arithmetic the
    samples are [0.5 + 0.005 k], the last one being 2.0.  In binary64 they
    are the accumulated sums: none of them is 2.0, and the last is
    1.9999999999999791. *)
Theorem findPeakAmplitude_scan_maximum :
  (forall f zeta2 mu zeta1 : R,
      exists m : R,
        findPeakAmplitude (Fin f) (Fin zeta2) (Fin mu) (Fin zeta1) = Fin m
        /\ (exists k, (k <= 300)%nat
              /\ getAmplitude (Fin (5 / 10 + INR k * (5 / 1000)))
                   (Fin f) (Fin zeta2) (Fin mu) (Fin zeta1) = Fin m)
        /\ (forall k, (k <= 300)%nat ->
              exists a, getAmplitude (Fin (5 / 10 + INR k * (5 / 1000)))
                          (Fin f) (Fin zeta2) (Fin mu) (Fin zeta1) = Fin a
                        /\ a <= m)
        /\ 5 / 10 + INR 300 * (5 / 1000) = 2)
  /\ (forall f zeta2 mu zeta1 : float,
      is_peak_of_scan f zeta2 mu zeta1 301 (findPeakAmplitude f zeta2 mu zeta1))
  /\ (forall k, (k <= 300)%nat -> PrimFloat.eqb (scan_point k) 2%float = false)
  /\ @scan_point float _ 300 = 1.9999999999999791%float.
Proof.
  split; [|split; [|split]].
  - intros f zeta2 mu zeta1.
    exists (peakR f zeta2 mu zeta1).
    split; [apply findPeakAmplitude_exact|].
    split; [|split].
    + unfold peakR.
      destruct (scanR_attained 301 0 f zeta2 mu zeta1 0) as [E|[i [Hi E]]].
      * exists 0%nat. split; [lia|]. rewrite getAmplitude_exact. f_equal.
        fold (gridR 0). apply Rle_antisym.
        -- apply scanR_upper. lia.
        -- rewrite E. apply ampR_nonneg.
      * exists i. split; [lia|]. rewrite getAmplitude_exact. f_equal.
        symmetry. exact E.
    + intros k Hk. eexists. split; [apply getAmplitude_exact|].
      fold (gridR k). unfold peakR. apply scanR_upper. lia.
    + exact gridR_300.
  - intros f zeta2 mu zeta1.
    exact (findPeakAmplitude_is_peak b64_ltb_irrefl b64_ltb_trans f zeta2 mu zeta1 b64_scan_exit).
  - assert (Hall : forallb (fun k => negb (PrimFloat.eqb (@scan_point float _ k) 2%float))
                     (seq 0 301) = true) by (vm_compute; reflexivity).
    intros k Hk. rewrite forallb_forall in Hall.
    apply negb_true_iff, Hall, in_seq. lia.
  - exact b64_scan_last.
Qed.

(** C5, the counterexample.  In binary64 the result is not the maximum over
    the grid [0.5 + 0.005 k], [k = 0 .. 300]: at [f = 0.7], [zeta2 = 0],
    [mu = 9], [zeta1 = 0] the amplitude at the end point [g = 2.0] is greater
    than the result, and at [f = 1], [zeta2 = mu = zeta1 = 0] the result is
    [2^50], from an accumulated sample next to 1, while no point of the grid
    has an amplitude above 101. *)
Lemma grid_endpoint_not_sampled :
  PrimFloat.ltb (findPeakAmplitude 0.7%float 0%float 9%float 0%float)
    (getAmplitude 2%float 0.7%float 0%float 9%float 0%float) = true
  /\ @nominal_point float _ 300 = 2%float
  /\ findPeakAmplitude 1%float 0%float 0%float 0%float = 1125899906842624%float
  /\ forallb (fun k => PrimFloat.leb
                         (getAmplitude (nominal_point k) 1%float 0%float 0%float 0%float)
                         101%float)
       (seq 0 301) = true.
Proof. vm_compute. repeat split; reflexivity. Qed.

(** C8 (as amended).  [getAmplitude], [getOriginalAmplitude] and
    [findPeakAmplitude] never return a negative number.  In exact arithmetic,
    on finite arguments, the value is finite and not negative.  In binary64,
    on all arguments, the value of the two amplitude functions is a
    not-a-number or a number [>= 0], and the value of [findPeakAmplitude] is
    a number [>= 0]; [Infinity] counts as such a number. *)
Theorem amplitudes_never_negative :
  (forall g f zeta2 mu zeta1 : R,
      (exists a, getAmplitude (Fin g) (Fin f) (Fin zeta2) (Fin mu) (Fin zeta1) = Fin a
                 /\ 0 <= a)
      /\ (exists a, getOriginalAmplitude (Fin g) (Fin zeta1) = Fin a /\ 0 <= a)
      /\ (exists p, findPeakAmplitude (Fin f) (Fin zeta2) (Fin mu) (Fin zeta1) = Fin p
                    /\ 0 <= p))
  /\ (forall g f zeta2 mu zeta1 : float,
      never_negative (getAmplitude g f zeta2 mu zeta1)
      /\ never_negative (getOriginalAmplitude g zeta1)
      /\ PrimFloat.leb 0%float (findPeakAmplitude f zeta2 mu zeta1) = true).
Proof.
  split; intros g f zeta2 mu zeta1.
  - split; [|split].
    + eexists. split; [apply getAmplitude_exact|apply ampR_nonneg].
    + eexists. split; [apply getOriginalAmplitude_exact|apply origR_nonneg].
    + eexists. split; [apply findPeakAmplitude_exact|].
      unfold peakR. apply scanR_ge_init.
  - split; [|split].
    + apply b64_nonneg_never_negative, b64_getAmplitude_nonneg.
    + apply b64_nonneg_never_negative, b64_getOriginalAmplitude_nonneg.
    + apply b64_findPeakAmplitude_nonneg.
Qed.

(** C8, the counterexample.  In binary64 the value need not be finite.  At
    [g = 1e200] the squares overflow, [denPart1] is [Infinity - Infinity],
    and [getAmplitude] returns a not-a-number.  At [g = 1], [f = 1e74],
    [zeta2 = 0], [mu = 2e-310], [zeta1 = 0] numerator and denominator are
    finite and their quotient is [Infinity]. *)
Lemma amplitude_overflow_counterexample :
  getAmplitude 1e200%float 1%float 0.1%float 0.05%float 0.05%float = PrimFloat.nan
  /\ PrimFloat.mul 1e200%float 1e200%float = PrimFloat.infinity
  /\ getAmplitude 1%float 1e74%float 0%float 2e-310%float 0%float = PrimFloat.infinity
  /\ amplitude_num 1%float 1e74%float 0%float = 9.9999999999999991e+147%float
  /\ amplitude_den 1%float 1e74%float 0%float 2e-310%float 0%float
     = 2.2227587494850775e-162%float.
Proof. vm_compute. repeat split; reflexivity. Qed.

End AmplitudeClaims.

(** * The claims about golden-section search *)

Section SearchClaims.
Local Open Scope R_scope.

Lemma exact_gss_accuracy (f : xreal -> xreal) (lower upper tol : R) :
  lower < upper -> 0 < tol ->
  exists (r : R) (k : nat),
    (forall fuel, (k <= fuel)%nat ->
        goldenSectionSearch fuel f (Fin lower) (Fin upper) (Fin tol) = Some (Fin r))
    /\ lower <= r <= upper
    /\ (forall c d x0 : R,
          0 < c -> lower <= x0 <= upper ->
          (forall x, f (Fin x) = Fin (c * ((x - x0) * (x - x0)) + d)) ->
          Rabs (r - x0) <= tol).
Proof.
  intros Hlu Htol.
  destruct (exact_gss_run f lower upper tol Htol) as (k & Hinv & Hk & _ & Hret & _).
  cbv zeta in *. rewrite gss_init_state in *.
  set (s := gss_iter k f (Fin phiR) (gss_state f lower upper)) in *.
  exists ((xval (ga s) + xval (gb s)) / 2), k.
  split; [exact Hret|].
  pose proof (gss_iter_nested f (gss_state f lower upper) k) as Hn.
  rewrite <- gss_init_state in Hn. specialize (Hn (gss_inv_init f lower upper)).
  rewrite gss_init_state in Hn. cbn [gss_state ga gb xval] in Hn. fold s in Hn.
  specialize (Hn (Rlt_le _ _ Hlu)).
  split; [lra|].
  intros c d x0 Hc Hx0 Hf.
  pose proof (gss_iter_parabola f c d x0 Hc Hf k lower upper Hx0) as Hp. fold s in Hp.
  unfold widthR in Hk. revert Hk.
  unfold Rabs. do 2 destruct (Rcase_abs _); lra.
Qed.

(** C6 (as amended).  In exact arithmetic, for every objective, every finite
    [lower < upper] and every [tol > 0], [goldenSectionSearch] returns a value
    inside [lower, upper]; and when the objective is a convex parabola
    [c (x - x0)^2 + d], [c > 0], with its minimiser [x0] inside
    [lower, upper], the value returned is within [tol] of [x0].  In binary64
    the two searches [optimizeTMD] makes (tolerance 1e-4 on [0.5, 1.5] and on
    [0.01, 0.5]) return a value inside their bracket for every objective. *)
Theorem golden_section_bracket_and_accuracy :
  (forall (f : xreal -> xreal) (lower upper tol : R),
      lower < upper -> 0 < tol ->
      exists (r : R) (k : nat),
        (forall fuel, (k <= fuel)%nat ->
            goldenSectionSearch fuel f (Fin lower) (Fin upper) (Fin tol) = Some (Fin r))
        /\ lower <= r <= upper
        /\ (forall c d x0 : R,
              0 < c -> lower <= x0 <= upper ->
              (forall x, f (Fin x) = Fin (c * ((x - x0) * (x - x0)) + d)) ->
              Rabs (r - x0) <= tol))
  /\ (forall (h : float -> float) (n : nat),
      (exists r, goldenSectionSearch (20 + n) h 0.5%float 1.5%float 1e-4%float = Some r
                 /\ in_box 0.5 1.5 r = true)
      /\ (exists r, goldenSectionSearch (20 + n) h 0.01%float 0.5%float 1e-4%float = Some r
                 /\ in_box 0.01 0.5 r = true)).
Proof.
  split.
  - exact exact_gss_accuracy.
  - intros h n. split.
    + apply (b64_gss_f h (20 + n)). lia.
    + apply (b64_gss_zeta2 h (20 + n)). lia.
Qed.

Lemma golden_section_bracket_and_accuracy_witness :
  exists (r : R) (k : nat),
    (forall fuel, (k <= fuel)%nat ->
        goldenSectionSearch fuel (fun x => xmul x x) (Fin (-1)) (Fin 2) (Fin (1 / 10))
        = Some (Fin r))
    /\ -1 <= r <= 2
    /\ Rabs (r - 0) <= 1 / 10.
Proof.
  destruct (proj1 golden_section_bracket_and_accuracy (fun x => xmul x x) (-1) 2 (1 / 10))
    as (r & k & Hret & Hbox & Hacc).
  - lra.
  - lra.
  - exists r, k. split; [exact Hret|]. split; [exact Hbox|].
    apply (Hacc 1 0 0).
    + lra.
    + lra.
    + intros x. cbn [xmul]. f_equal. ring.
Defined.

(** C6, the counterexample.  In binary64 the objective [(x - 1)^2 + 1] is
    flat to rounding within about 1e-8 of its minimiser 1; with the tolerance
    1e-9 on [0.5, 1.5] the search returns a point farther than the tolerance
    from it. *)
Lemma golden_section_parabola_counterexample :
  goldenSectionSearch 44
    (fun x => PrimFloat.add (PrimFloat.mul (PrimFloat.sub x 1) (PrimFloat.sub x 1)) 1)%float
    0.5%float 1.5%float 1e-9%float
  = Some 1.0000000102877324%float
  /\ PrimFloat.ltb 1e-9%float (PrimFloat.abs (PrimFloat.sub 1.0000000102877324 1))%float = true.
Proof. vm_compute. split; reflexivity. Qed.

Lemma exact_gss_terminates (f : xreal -> xreal) (lower upper tol : R) :
  0 < tol ->
  @gss_phi xreal _ = Fin ((sqrt 5 - 1) / 2)
  /\ 0 < (sqrt 5 - 1) / 2 < 1
  /\ (forall n,
        widthR (gss_iter (S n) f gss_phi (gss_init f (Fin lower) (Fin upper)))
        = (sqrt 5 - 1) / 2 * widthR (gss_iter n f gss_phi (gss_init f (Fin lower) (Fin upper))))
  /\ exists (k : nat) (a b : R),
       ga (gss_iter k f gss_phi (gss_init f (Fin lower) (Fin upper))) = Fin a
       /\ gb (gss_iter k f gss_phi (gss_init f (Fin lower) (Fin upper))) = Fin b
       /\ Rabs (b - a) <= tol
       /\ (forall j, (j < k)%nat ->
             tol < Rabs (widthR (gss_iter j f gss_phi (gss_init f (Fin lower) (Fin upper)))))
       /\ (forall fuel, (k <= fuel)%nat ->
             goldenSectionSearch fuel f (Fin lower) (Fin upper) (Fin tol)
             = Some (Fin ((a + b) / 2)))
       /\ (forall fuel, (fuel < k)%nat ->
             goldenSectionSearch fuel f (Fin lower) (Fin upper) (Fin tol) = None).
Proof.
  intros Htol. fold phiR. rewrite exact_gss_phi.
  split; [reflexivity|].
  split; [split; [apply phiR_pos|apply phiR_lt_1]|].
  split.
  - intros n. rewrite !exact_gss_width. simpl. ring.
  - destruct (exact_gss_run f lower upper tol Htol) as (k & Hinv & Hk & Hlt & Hret & Hnone).
    cbv zeta in *.
    set (s := gss_iter k f (Fin phiR) (gss_init f (Fin lower) (Fin upper))) in *.
    exists k, (xval (ga s)), (xval (gb s)).
    destruct Hinv as [Ha Hb _ _ _ _].
    repeat split; try assumption.
Qed.

(** C7 (as amended).  In exact arithmetic [goldenSectionSearch] terminates
    for every objective and every finite bracket whenever [tol > 0]: each pass
    multiplies the width [b - a] of the bracket by [phi = (sqrt 5 - 1) / 2],
    [0 < phi < 1]; the loop is left after exactly [k] passes, [k] the first
    count at which [|b - a| <= tol], and the midpoint [(a + b) / 2] of that
    bracket is returned.  In binary64 the two searches [optimizeTMD] makes
    (tolerance 1e-4 on [0.5, 1.5] and on [0.01, 0.5]) terminate within 20
    passes for every objective. *)
Theorem golden_section_terminates :
  (forall (f : xreal -> xreal) (lower upper tol : R),
      0 < tol ->
      @gss_phi xreal _ = Fin ((sqrt 5 - 1) / 2)
      /\ 0 < (sqrt 5 - 1) / 2 < 1
      /\ (forall n,
            widthR (gss_iter (S n) f gss_phi (gss_init f (Fin lower) (Fin upper)))
            = (sqrt 5 - 1) / 2 * widthR (gss_iter n f gss_phi (gss_init f (Fin lower) (Fin upper))))
      /\ exists (k : nat) (a b : R),
           ga (gss_iter k f gss_phi (gss_init f (Fin lower) (Fin upper))) = Fin a
           /\ gb (gss_iter k f gss_phi (gss_init f (Fin lower) (Fin upper))) = Fin b
           /\ Rabs (b - a) <= tol
           /\ (forall j, (j < k)%nat ->
                 tol < Rabs (widthR (gss_iter j f gss_phi (gss_init f (Fin lower) (Fin upper)))))
           /\ (forall fuel, (k <= fuel)%nat ->
                 goldenSectionSearch fuel f (Fin lower) (Fin upper) (Fin tol)
                 = Some (Fin ((a + b) / 2)))
           /\ (forall fuel, (fuel < k)%nat ->
                 goldenSectionSearch fuel f (Fin lower) (Fin upper) (Fin tol) = None))
  /\ (forall h : float -> float,
      (exists r, goldenSectionSearch 20 h 0.5%float 1.5%float 1e-4%float = Some r)
      /\ (exists r, goldenSectionSearch 20 h 0.01%float 0.5%float 1e-4%float = Some r)).
Proof.
  split.
  - exact exact_gss_terminates.
  - intros h. split.
    + destruct (b64_gss_f h 20 (Nat.le_refl 20)) as (r & E & _). exists r. exact E.
    + destruct (b64_gss_zeta2 h 20 (Nat.le_refl 20)) as (r & E & _). exists r. exact E.
Qed.

Lemma golden_section_terminates_witness :
  exists k r, forall fuel, (k <= fuel)%nat ->
    goldenSectionSearch fuel (fun x => xmul x x) (Fin (-1)) (Fin 2) (Fin (1 / 10))
    = Some (Fin r).
Proof.
  destruct (proj1 golden_section_terminates (fun x => xmul x x) (-1) 2 (1 / 10))
    as (_ & _ & _ & k & a & b & _ & _ & _ & _ & Hret & _).
  - lra.
  - exists k, ((a + b) / 2). exact Hret.
Defined.

End SearchClaims.

Section SearchStall.
Local Open Scope float_scope.

(** The bracket [1, 1 + 2^-52] holds two adjacent doubles: both probes round
    onto its ends and two passes bring every variable back. *)
Lemma b64_stall_cycle :
  let s0 := gss_init (fun x : float => x) 1 1.0000000000000002 in
  gss_iter 2 (fun x => x) gss_phi s0 = s0
  /\ gss_guard 1e-17 s0 = true
  /\ gss_guard 1e-17 (gss_iter 1 (fun x => x) gss_phi s0) = true.
Proof. vm_compute. repeat split; reflexivity. Qed.

(** C7, the counterexample.  In binary64, with the positive tolerance 1e-17,
    the search on [1, 1 + 2^-52] with the identity as objective never leaves
    its loop: whatever the fuel, it runs out. *)
Lemma golden_section_stalls :
  PrimFloat.ltb 0 1e-17 = true
  /\ PrimFloat.ltb 1 1.0000000000000002 = true
  /\ forall fuel,
       goldenSectionSearch fuel (fun x : float => x) 1 1.0000000000000002 1e-17 = None.
Proof.
  split; [vm_compute; reflexivity|]. split; [vm_compute; reflexivity|].
  intros fuel. unfold goldenSectionSearch.
  destruct b64_stall_cycle as (Hcycle & Hg0 & Hg1). cbv zeta in *.
  set (s0 := gss_init (fun x : float => x) 1 1.0000000000000002) in *.
  apply gss_while_starves. intros j _.
  assert (Hper : forall n, gss_iter (2 * n) (fun x => x) gss_phi s0 = s0).
  { induction n as [|n IH]; [reflexivity|].
    replace (2 * S n)%nat with (2 + 2 * n)%nat by lia.
    rewrite gss_iter_add, Hcycle. exact IH. }
  destruct (Nat.Even_or_Odd j) as [[n ->]|[n ->]].
  - rewrite Hper. exact Hg0.
  - rewrite gss_iter_add, Hper. exact Hg1.
Qed.

End SearchStall.
(** * The claims about the optimizer *)

Section OptimizerSpec.
Context {T : Type} `{Number T}.
Local Open Scope num_scope.

Lemma returns_current_peak_of_run fuel mu zeta1 s :
  optimizeTMD_run fuel mu zeta1 = Some s -> returns_current_peak fuel mu zeta1.
Proof.
  intros E. exists s, (mkResult (d_f s) (d_zeta2 s) (d_currentVal s)).
  split; [exact E|].
  pose proof E as E'. unfold optimizeTMD_run in E'. cbv zeta in E'.
  apply descent_for_result in E'. destruct E' as (_ & _ & Hc & Hp).
  cbn [d_passes] in Hp.
  split; [lia|]. split; [unfold optimizeTMD; rewrite E; reflexivity|].
  cbn [f_opt zeta2_opt minPeakAmp]. repeat split. exact Hc.
Qed.



End OptimizerSpec.

Section OptimizerClaims.

(** C3.  In both arithmetics, and for all arguments whatsoever, [optimizeTMD]
    returns as soon as each search may make 20 passes; the descent loop runs
    at most 20 passes, and the [minPeakAmp] returned is [findPeakAmplitude] at
    the returned pair. *)
Theorem optimizeTMD_returns_current_peak :
  (forall (mu zeta1 : xreal) (n : nat), returns_current_peak (20 + n) mu zeta1)
  /\ (forall (mu zeta1 : float) (n : nat), returns_current_peak (20 + n) mu zeta1).
Proof.
  split; intros mu zeta1 n.
  - destruct (exact_optimizeTMD_run_total mu zeta1 (20 + n)) as [s E]; [lia|].
    eapply returns_current_peak_of_run, E.
  - destruct (b64_optimizeTMD_run_total mu zeta1 (20 + n)) as [s E]; [lia|].
    eapply returns_current_peak_of_run, E.
Qed.

(** C9.  In both arithmetics, and for all arguments whatsoever, the pair
    returned by [optimizeTMD] satisfies [0.5 <= f_opt <= 1.5] and
    [0.01 <= zeta2_opt <= 0.5]. *)
Theorem optimizeTMD_stays_in_boxes :
  (forall (mu zeta1 : xreal) (n : nat),
      exists r, optimizeTMD (20 + n) mu zeta1 = Some r /\ exact_in_boxes r)
  /\ (forall (mu zeta1 : float) (n : nat),
      exists r, optimizeTMD (20 + n) mu zeta1 = Some r /\ b64_in_boxes r).
Proof.
  split; intros mu zeta1 n.
  - destruct (exact_optimizeTMD_run_total mu zeta1 (20 + n)) as [s E]; [lia|].
    exists (mkResult (d_f s) (d_zeta2 s) (d_currentVal s)).
    split; [unfold optimizeTMD; rewrite E; reflexivity|].
    destruct (exact_optimizeTMD_run_box mu zeta1 _ s E) as (f & z & Hf & Hz & Bf & Bz).
    exists f, z. cbn [f_opt zeta2_opt]. repeat split; try assumption; lra.
  - destruct (b64_optimizeTMD_run_total mu zeta1 (20 + n)) as [s E]; [lia|].
    exists (mkResult (d_f s) (d_zeta2 s) (d_currentVal s)).
    split; [unfold optimizeTMD; rewrite E; reflexivity|].
    exact (b64_optimizeTMD_run_box mu zeta1 _ s E).
Qed.

Local Open Scope float_scope.



End OptimizerClaims.

(** * Further properties of the amplitude model *)

Section AntiResonance.

Lemma SFsub_self prec emax x :
  SFsub prec emax x x = S754_zero false \/ SFsub prec emax x x = S754_nan.
Proof.
  destruct x as [[|]|[|]| |s m e]; cbn [SFsub]; auto.
  left. cbv zeta. rewrite Z.sub_diag. reflexivity.
Qed.

Lemma SFmul_zero_or_nan_l prec emax x y :
  sf_zero_or_nan x = true -> sf_zero_or_nan (SFmul prec emax x y) = true.
Proof.
  destruct x as [s|s| |s m e]; cbn [sf_zero_or_nan]; try discriminate; intros _;
    destruct y; reflexivity.
Qed.

Lemma sf_zero_nonneg x :
  sf_zero_or_nan x = true -> sf_nonneg x = true -> x = S754_zero false \/ x = S754_nan.
Proof.
  destruct x as [[|]|s| |s m e]; cbn [sf_zero_or_nan sf_nonneg negb]; try discriminate; auto.
Qed.

Lemma b64_square_zero_or_nan (x : float) :
  sf_zero_or_nan (Prim2SF x) = true ->
  Prim2SF (PrimFloat.mul x x) = S754_zero false \/ Prim2SF (PrimFloat.mul x x) = S754_nan.
Proof.
  intros Hx. apply sf_zero_nonneg; [|apply b64_mul_self_nonneg].
  rewrite FloatAxioms.mul_spec. apply SFmul_zero_or_nan_l, Hx.
Qed.

(** The numerator of [getAmplitude] at [g = f], [zeta2 = 0]. *)
Lemma b64_antiresonance_num (f : float) :
  Prim2SF (amplitude_num f f 0%float) = S754_zero false
  \/ Prim2SF (amplitude_num f f 0%float) = S754_nan.
Proof.
  unfold amplitude_num. cbv zeta. cbn [nadd nsub nmul Math_sqrt ofZ b64].
  assert (H1 : sf_zero_or_nan (Prim2SF (PrimFloat.sub (PrimFloat.mul f f) (PrimFloat.mul f f)))
               = true).
  { rewrite FloatAxioms.sub_spec.
    destruct (SFsub_self prec emax (Prim2SF (PrimFloat.mul f f))) as [E|E];
      unfold SF64sub; rewrite E; reflexivity. }
  assert (H2 : sf_zero_or_nan
                 (Prim2SF (PrimFloat.mul (PrimFloat.mul (PrimFloat.mul (b64_ofZ 2) 0%float) f) f))
               = true).
  { rewrite FloatAxioms.mul_spec. apply SFmul_zero_or_nan_l.
    rewrite FloatAxioms.mul_spec. apply SFmul_zero_or_nan_l. reflexivity. }
  rewrite FloatAxioms.sqrt_spec, FloatAxioms.add_spec.
  destruct (b64_square_zero_or_nan _ H1) as [E1|E1],
           (b64_square_zero_or_nan _ H2) as [E2|E2];
    rewrite E1, E2; auto.
Qed.

Lemma b64_antiresonance (f mu zeta1 : float) :
  getAmplitude f f 0%float mu zeta1 = 0%float
  \/ getAmplitude f f 0%float mu zeta1 = 100%float
  \/ getAmplitude f f 0%float mu zeta1 = PrimFloat.nan.
Proof.
  assert (E : getAmplitude f f 0%float mu zeta1
              = (if PrimFloat.eqb (amplitude_den f f 0%float mu zeta1) 0%float then 100%float
                 else PrimFloat.div (amplitude_num f f 0%float)
                        (amplitude_den f f 0%float mu zeta1))) by reflexivity.
  rewrite E. clear E.
  destruct (PrimFloat.eqb (amplitude_den f f 0%float mu zeta1) 0%float) eqn:Ed;
    [right; left; reflexivity|].
  assert (Hden : b64_nonneg (amplitude_den f f 0%float mu zeta1)).
  { unfold amplitude_den. cbv zeta. apply b64_sqrt_sumsq_nonneg. }
  unfold b64_nonneg in Hden.
  rewrite FloatAxioms.eqb_spec in Ed. change (Prim2SF 0%float) with (S754_zero false) in Ed.
  assert (Hq : Prim2SF (PrimFloat.div (amplitude_num f f 0%float)
                          (amplitude_den f f 0%float mu zeta1)) = S754_zero false
               \/ Prim2SF (PrimFloat.div (amplitude_num f f 0%float)
                             (amplitude_den f f 0%float mu zeta1)) = S754_nan).
  { rewrite FloatAxioms.div_spec.
    destruct (b64_antiresonance_num f) as [En|En]; rewrite En;
      destruct (Prim2SF (amplitude_den f f 0%float mu zeta1)) as [[|]|[|]| |[|] m e];
      try discriminate; auto. }
  destruct Hq as [Hq|Hq].
  - left. apply Prim2SF_inj. rewrite Hq. reflexivity.
  - right. right. apply Prim2SF_inj. rewrite Hq. reflexivity.
Qed.

Local Open Scope R_scope.

Lemma exact_antiresonance (f mu zeta1 : R) :
  f <> 0 -> mu <> 0 ->
  getAmplitude (Fin f) (Fin f) (Fin 0) (Fin mu) (Fin zeta1) = Fin 0.
Proof.
  intros Hf Hmu.
  assert (Hden : denR f f 0 mu zeta1 = Rabs mu * (f * f * (f * f))).
  { unfold denR, denPart1R, denPart2R, term1R.
    replace (((1 - f * f) * (f * f - f * f) - mu * (f * f) * (f * f) - 4 * zeta1 * 0 * f * (f * f))
             * ((1 - f * f) * (f * f - f * f) - mu * (f * f) * (f * f) - 4 * zeta1 * 0 * f * (f * f))
             + (2 * 0 * f * f * (1 - f * f - mu * (f * f)) + 2 * zeta1 * f * (f * f - f * f))
               * (2 * 0 * f * f * (1 - f * f - mu * (f * f)) + 2 * zeta1 * f * (f * f - f * f)))
      with ((mu * (f * f * (f * f))) * (mu * (f * f * (f * f)))) by ring.
    fold (Rsqr (mu * (f * f * (f * f)))).
    rewrite sqrt_Rsqr_abs, Rabs_mult.
    rewrite (Rabs_pos_eq (f * f * (f * f))); [reflexivity|].
    apply Rmult_le_pos; apply Rle_0_sqr. }
  rewrite getAmplitude_exact. unfold ampR. rewrite Hden.
  assert (Hpos : 0 < Rabs mu * (f * f * (f * f))).
  { assert (Hff : 0 < f * f) by (apply (Rsqr_pos_lt f), Hf).
    apply Rmult_lt_0_compat; [apply Rabs_pos_lt, Hmu|].
    apply Rmult_lt_0_compat; exact Hff. }
  replace (Reqb (Rabs mu * (f * f * (f * f))) 0) with false
    by (symmetry; apply Reqb_false; lra).
  f_equal.
  assert (Hnum : numR f f 0 = 0).
  { unfold numR. apply sqrt_sumsq_zero. unfold term1R, term2R. split; ring. }
  rewrite Hnum. unfold Rdiv. ring.
Qed.

(** X3.  An undamped absorber ([zeta2 = 0]) excited at its own frequency
    ([g = f]).  In binary64, for all [f], [mu] and [zeta1], [getAmplitude]
    returns 0, or the sentinel 100 (when the denominator is computed as
    zero), or a not-a-number (on overflow, or from an argument that is one):
    never another number.  In exact
    arithmetic it returns 0 whenever [f <> 0] and [mu <> 0]. *)
Theorem undamped_absorber_antiresonance :
  (forall f mu zeta1 : float,
      getAmplitude f f 0%float mu zeta1 = 0%float
      \/ getAmplitude f f 0%float mu zeta1 = 100%float
      \/ getAmplitude f f 0%float mu zeta1 = PrimFloat.nan)
  /\ (forall f mu zeta1 : R,
      f <> 0 -> mu <> 0 ->
      getAmplitude (Fin f) (Fin f) (Fin 0) (Fin mu) (Fin zeta1) = Fin 0).
Proof. split; [exact b64_antiresonance|exact exact_antiresonance]. Qed.

Lemma undamped_absorber_antiresonance_witness :
  getAmplitude (Fin 1) (Fin 1) (Fin 0) (Fin (1 / 20)) (Fin (1 / 20)) = Fin 0.
Proof. apply (proj2 undamped_absorber_antiresonance 1 (1 / 20) (1 / 20)); lra. Defined.

End AntiResonance.

(** * Further properties of golden-section search *)

Section ProbePaths.
Context {T : Type} `{Number T}.
Local Open Scope num_scope.

Lemma gss_all_paths_probes_ok (ok : T -> bool) depth phi tol a b x1 x2 :
  gss_all_paths_probes depth ok phi tol a b x1 x2 = true -> ok x1 = true /\ ok x2 = true.
Proof.
  destruct depth; cbn [gss_all_paths_probes]; intros Hp;
    apply andb_true_iff in Hp; destruct Hp as [Hok _];
    apply andb_true_iff in Hok; exact Hok.
Qed.

Lemma gss_all_paths_probes_sound (ok : T -> bool) (phi tol : T) (f h : T -> T) :
  (forall x, ok x = true -> f x = h x) ->
  forall depth s,
    gss_all_paths_probes depth ok phi tol (ga s) (gb s) (gx1 s) (gx2 s) = true ->
    forall fuel, gss_while fuel f phi tol s = gss_while fuel h phi tol s.
Proof.
  intros Hfh. induction depth as [|depth IH]; intros s Hp fuel;
    rewrite (gss_while_unfold _ f), (gss_while_unfold _ h);
    cbn [gss_all_paths_probes] in Hp;
    apply andb_true_iff in Hp; destruct Hp as [Hok Hrest];
    unfold gss_guard in *; destruct (Math_abs (gb s - ga s) >? tol);
    try reflexivity; try discriminate.
  destruct fuel as [|fuel]; [reflexivity|].
  apply andb_true_iff in Hrest. destruct Hrest as [Hl Hr].
  assert (Hbody : gss_body f phi s = gss_body h phi s).
  { unfold gss_body. destruct (gf1 s <? gf2 s); cbv zeta; f_equal; apply Hfh.
    - apply (gss_all_paths_probes_ok _ _ _ _ _ _ _ _ Hl).
    - apply (gss_all_paths_probes_ok _ _ _ _ _ _ _ _ Hr). }
  rewrite <- Hbody. apply IH.
  unfold gss_body. destruct (gf1 s <? gf2 s); cbn [ga gb gx1 gx2]; assumption.
Qed.

Lemma goldenSectionSearch_all_paths_probes (ok : T -> bool) lower upper tol depth (f h : T -> T) :
  gss_all_paths_probes depth ok gss_phi tol lower upper
    (upper - gss_phi * (upper - lower)) (lower + gss_phi * (upper - lower)) = true ->
  (forall x, ok x = true -> f x = h x) ->
  forall fuel,
    goldenSectionSearch fuel f lower upper tol = goldenSectionSearch fuel h lower upper tol.
Proof.
  intros Hp Hfh fuel. unfold goldenSectionSearch.
  assert (Hinit : gss_init f lower upper = gss_init h lower upper).
  { destruct (gss_all_paths_probes_ok _ _ _ _ _ _ _ _ Hp) as [H1 H2].
    unfold gss_init. cbv zeta. rewrite (Hfh _ H1), (Hfh _ H2). reflexivity. }
  rewrite <- Hinit.
  apply (gss_all_paths_probes_sound ok gss_phi tol f h Hfh depth). exact Hp.
Qed.

End ProbePaths.

Section SearchFacts.
Local Open Scope R_scope.

(** Two objectives that agree between [lo] and [hi] drive the loop alike from
    every bracket with both ends there. *)
Lemma gss_while_local (f h : xreal -> xreal) (tol : xreal) (lo hi : R) :
  (forall x, lo <= x <= hi -> f (Fin x) = h (Fin x)) ->
  forall fuel a b, lo <= a <= hi -> lo <= b <= hi ->
    gss_while fuel f (Fin phiR) tol (gss_state f a b)
    = gss_while fuel h (Fin phiR) tol (gss_state h a b).
Proof.
  intros Hfh.
  assert (Hstate : forall a b, lo <= a <= hi -> lo <= b <= hi ->
                     f (Fin (b - phiR * (b - a))) = h (Fin (b - phiR * (b - a)))
                     /\ f (Fin (a + phiR * (b - a))) = h (Fin (a + phiR * (b - a)))
                     /\ lo <= b - phiR * (b - a) <= hi
                     /\ lo <= a + phiR * (b - a) <= hi).
  { intros a b Ha Hb.
    pose proof phiR_pos as Hp0. pose proof phiR_lt_1 as Hp1.
    assert (Hx2 : lo <= a + phiR * (b - a) <= hi).
    { replace (a + phiR * (b - a)) with ((1 - phiR) * a + phiR * b) by ring. nra. }
    assert (Hx1 : lo <= b - phiR * (b - a) <= hi).
    { replace (b - phiR * (b - a)) with (phiR * a + (1 - phiR) * b) by ring. nra. }
    repeat split; try apply Hfh; tauto. }
  induction fuel as [|fuel IH]; intros a b Ha Hb;
    rewrite (gss_while_unfold _ f), (gss_while_unfold _ h);
    change (gss_guard tol (gss_state f a b)) with (gss_guard tol (gss_state h a b));
    change (gss_mid (gss_state f a b)) with (gss_mid (gss_state h a b));
    destruct (gss_guard tol (gss_state h a b)); try reflexivity.
  rewrite !gss_body_state.
  destruct (Hstate a b Ha Hb) as (E1 & E2 & Hx1 & Hx2).
  rewrite E1, E2.
  destruct (nltb _ _); apply IH; assumption.
Qed.

Lemma exact_gss_local (f h : xreal -> xreal) (lower upper : R) (tol : xreal) (fuel : nat) :
  (forall x, Rmin lower upper <= x <= Rmax lower upper -> f (Fin x) = h (Fin x)) ->
  goldenSectionSearch fuel f (Fin lower) (Fin upper) tol
  = goldenSectionSearch fuel h (Fin lower) (Fin upper) tol.
Proof.
  intros Hfh. unfold goldenSectionSearch. rewrite exact_gss_phi.
  change (gss_init f (Fin lower) (Fin upper))
    with (@gss_init xreal _ f (Fin lower) (Fin upper)).
  rewrite !gss_init_state.
  apply (gss_while_local f h tol (Rmin lower upper) (Rmax lower upper) Hfh).
  - split; [apply Rmin_l|apply Rmax_l].
  - split; [apply Rmin_r|apply Rmax_r].
Qed.

Lemma b64_gss_probes_f :
  gss_all_paths_probes 20 (in_box 0.5 1.5) gss_phi (dec 1 4) (dec 5 1) (dec 15 1)
    (nsub (dec 15 1) (nmul gss_phi (nsub (dec 15 1) (dec 5 1))))
    (nadd (dec 5 1) (nmul gss_phi (nsub (dec 15 1) (dec 5 1)))) = true.
Proof. vm_compute. reflexivity. Qed.

Lemma b64_gss_probes_zeta2 :
  gss_all_paths_probes 20 (in_box 0.01 0.5) gss_phi (dec 1 4) (dec 1 2) (dec 5 1)
    (nsub (dec 5 1) (nmul gss_phi (nsub (dec 5 1) (dec 1 2))))
    (nadd (dec 1 2) (nmul gss_phi (nsub (dec 5 1) (dec 1 2)))) = true.
Proof. vm_compute. reflexivity. Qed.

(** X7.  The search reads its objective only inside its bracket.  In
    binary64, for the two searches [optimizeTMD] makes (tolerance 1e-4 on
    [0.5, 1.5] and on [0.01, 0.5]): every probe on every path lies in the
    bracket, so two objectives that agree on the numbers of the bracket give
    the same outcome, whatever the fuel.  In exact arithmetic the same holds
    for every finite bracket and every tolerance. *)
Theorem golden_section_reads_inside_bracket :
  (forall (f h : float -> float) (fuel : nat),
      (forall x, in_box 0.5 1.5 x = true -> f x = h x) ->
      goldenSectionSearch fuel f 0.5%float 1.5%float 1e-4%float
      = goldenSectionSearch fuel h 0.5%float 1.5%float 1e-4%float)
  /\ (forall (f h : float -> float) (fuel : nat),
      (forall x, in_box 0.01 0.5 x = true -> f x = h x) ->
      goldenSectionSearch fuel f 0.01%float 0.5%float 1e-4%float
      = goldenSectionSearch fuel h 0.01%float 0.5%float 1e-4%float)
  /\ (forall (f h : xreal -> xreal) (lower upper : R) (tol : xreal) (fuel : nat),
      (forall x, Rmin lower upper <= x <= Rmax lower upper -> f (Fin x) = h (Fin x)) ->
      goldenSectionSearch fuel f (Fin lower) (Fin upper) tol
      = goldenSectionSearch fuel h (Fin lower) (Fin upper) tol).
Proof.
  split; [|split].
  - intros f h fuel Hfh.
    exact (goldenSectionSearch_all_paths_probes _ _ _ _ _ f h b64_gss_probes_f Hfh fuel).
  - intros f h fuel Hfh.
    exact (goldenSectionSearch_all_paths_probes _ _ _ _ _ f h b64_gss_probes_zeta2 Hfh fuel).
  - exact exact_gss_local.
Qed.

Lemma golden_section_reads_inside_bracket_witness :
  goldenSectionSearch 20 (fun x => PrimFloat.mul x x) 0.5%float 1.5%float 1e-4%float
  = goldenSectionSearch 20
      (fun x => if in_box 0.5 1.5 x then PrimFloat.mul x x else PrimFloat.nan)
      0.5%float 1.5%float 1e-4%float.
Proof.
  apply (proj1 golden_section_reads_inside_bracket).
  intros x Hx. rewrite Hx. reflexivity.
Defined.

End SearchFacts.

(** * The number of passes of the optimizer's searches *)

Section StayPaths.
Context {T : Type} `{Number T}.
Local Open Scope num_scope.

Lemma gss_all_paths_stay_sound phi tol f :
  forall depth s,
    gss_all_paths_stay depth phi tol (ga s) (gb s) (gx1 s) (gx2 s) = true ->
    forall j, (j <= depth)%nat -> gss_guard tol (gss_iter j f phi s) = true.
Proof.
  induction depth as [|depth IH]; intros s Hp j Hj;
    cbn [gss_all_paths_stay] in Hp; apply andb_true_iff in Hp; destruct Hp as [Hg Hrest].
  - replace j with 0%nat by lia. exact Hg.
  - destruct j as [|j]; [exact Hg|].
    cbn [gss_iter]. apply andb_true_iff in Hrest. destruct Hrest as [Hl Hr].
    apply IH; [|lia].
    unfold gss_body. destruct (gf1 s <? gf2 s); cbn [ga gb gx1 gx2]; assumption.
Qed.

Lemma goldenSectionSearch_all_paths_stay lower upper tol depth :
  gss_all_paths_stay depth gss_phi tol lower upper
    (upper - gss_phi * (upper - lower)) (lower + gss_phi * (upper - lower)) = true ->
  forall f, goldenSectionSearch depth f lower upper tol = None.
Proof.
  intros Hp f. unfold goldenSectionSearch. apply gss_while_starves.
  apply gss_all_paths_stay_sound with (depth := depth). exact Hp.
Qed.

End StayPaths.

Section PassCounts.
Local Open Scope R_scope.

Lemma phiR_pow_decreasing (n m : nat) : (n <= m)%nat -> phiR ^ m <= phiR ^ n.
Proof.
  intros Hnm. induction Hnm as [|m Hnm IH]; [lra|].
  simpl. pose proof phiR_pos as Hp0. pose proof phiR_lt_1 as Hp1.
  assert (0 <= phiR ^ m) by (apply pow_le; lra). nra.
Qed.

Lemma phiR_pow19 : 1 / 10000 < phiR ^ 19.
Proof.
  pose proof phiR_bounds as Hphi.
  apply Rlt_le_trans with ((618 / 1000) ^ 19).
  - simpl. lra.
  - apply pow_incr. lra.
Qed.

Lemma phiR_pow17 : 1 / 10000 < phiR ^ 17 * (49 / 100).
Proof.
  pose proof phiR_bounds as Hphi.
  assert ((618 / 1000) ^ 17 <= phiR ^ 17) by (apply pow_incr; lra).
  assert (1 / 10000 < (618 / 1000) ^ 17 * (49 / 100)) by (simpl; lra).
  lra.
Qed.

Lemma phiR_pow18 : phiR ^ 18 * (49 / 100) <= 1 / 10000.
Proof.
  pose proof phiR_bounds as Hphi.
  assert (phiR ^ 18 <= (6181 / 10000) ^ 18) by (apply pow_incr; lra).
  assert ((6181 / 10000) ^ 18 * (49 / 100) <= 1 / 10000) by (simpl; lra).
  lra.
Qed.

(** In exact arithmetic the loop is left after exactly [k] passes as soon as
    the width is above the tolerance after [k - 1] passes and not after
    [k]. *)
Lemma exact_gss_pass_count f lower upper tol k :
  0 < tol -> 0 <= upper - lower ->
  tol < phiR ^ k * (upper - lower) ->
  phiR ^ (S k) * (upper - lower) <= tol ->
  goldenSectionSearch k f (Fin lower) (Fin upper) (Fin tol) = None
  /\ exists r, goldenSectionSearch (S k) f (Fin lower) (Fin upper) (Fin tol) = Some (Fin r).
Proof.
  intros Htol Hw Hgt Hle.
  destruct (exact_gss_run f lower upper tol Htol) as (k' & _ & Hk' & Hlt' & Hret & Hnone).
  cbv zeta in *. rewrite exact_gss_width in Hk'.
  assert (Hpos : forall n, 0 <= phiR ^ n * (upper - lower)).
  { intros n. apply Rmult_le_pos; [apply pow_le, Rlt_le, phiR_pos|exact Hw]. }
  assert (Hk : k' = S k).
  { destruct (lt_eq_lt_dec k' (S k)) as [[Hlt|Heq]|Hgt']; [exfalso|exact Heq|exfalso].
    - rewrite Rabs_pos_eq in Hk' by apply Hpos.
      assert (phiR ^ k <= phiR ^ k') by (apply phiR_pow_decreasing; lia).
      assert (phiR ^ k * (upper - lower) <= phiR ^ k' * (upper - lower))
        by (apply Rmult_le_compat_r; assumption).
      lra.
    - specialize (Hlt' (S k) Hgt'). rewrite exact_gss_width in Hlt'.
      rewrite Rabs_pos_eq in Hlt' by apply Hpos. lra. }
  subst k'. split.
  - apply Hnone. lia.
  - eexists. apply Hret. lia.
Qed.

Lemma b64_gss_stay_f :
  gss_all_paths_stay 19 gss_phi (dec 1 4) (dec 5 1) (dec 15 1)
    (nsub (dec 15 1) (nmul gss_phi (nsub (dec 15 1) (dec 5 1))))
    (nadd (dec 5 1) (nmul gss_phi (nsub (dec 15 1) (dec 5 1)))) = true.
Proof. vm_compute. reflexivity. Qed.

Lemma b64_gss_stay_zeta2 :
  gss_all_paths_stay 17 gss_phi (dec 1 4) (dec 1 2) (dec 5 1)
    (nsub (dec 5 1) (nmul gss_phi (nsub (dec 5 1) (dec 1 2))))
    (nadd (dec 1 2) (nmul gss_phi (nsub (dec 5 1) (dec 1 2)))) = true.
Proof. vm_compute. reflexivity. Qed.

Lemma b64_gss_paths_zeta2_18 :
  gss_all_paths 18 (in_box 0.01 0.5) gss_phi (dec 1 4) (dec 1 2) (dec 5 1)
    (nsub (dec 5 1) (nmul gss_phi (nsub (dec 5 1) (dec 1 2))))
    (nadd (dec 1 2) (nmul gss_phi (nsub (dec 5 1) (dec 1 2)))) = true.
Proof. vm_compute. reflexivity. Qed.

(** X8.  Whatever the objective, and in both arithmetics, the search
    [optimizeTMD] makes over [0.5, 1.5] leaves its loop after exactly 20
    passes and the one over [0.01, 0.5] after exactly 18 (tolerance 1e-4):
    19, respectively 17, passes are not enough, and 20, respectively 18,
    are. *)
Theorem optimizer_search_pass_counts :
  (forall f : xreal -> xreal,
      (goldenSectionSearch 19 f (Fin (5 / 10)) (Fin (15 / 10)) (Fin (1 / 10000)) = None
       /\ exists r, goldenSectionSearch 20 f (Fin (5 / 10)) (Fin (15 / 10)) (Fin (1 / 10000))
                    = Some (Fin r))
      /\ (goldenSectionSearch 17 f (Fin (1 / 100)) (Fin (5 / 10)) (Fin (1 / 10000)) = None
          /\ exists r, goldenSectionSearch 18 f (Fin (1 / 100)) (Fin (5 / 10)) (Fin (1 / 10000))
                       = Some (Fin r)))
  /\ (forall h : float -> float,
      (goldenSectionSearch 19 h 0.5%float 1.5%float 1e-4%float = None
       /\ exists r, goldenSectionSearch 20 h 0.5%float 1.5%float 1e-4%float = Some r)
      /\ (goldenSectionSearch 17 h 0.01%float 0.5%float 1e-4%float = None
          /\ exists r, goldenSectionSearch 18 h 0.01%float 0.5%float 1e-4%float = Some r)).
Proof.
  split.
  - intros f. split.
    + apply exact_gss_pass_count; try lra.
      * pose proof phiR_pow19. lra.
      * pose proof phiR_pow20. lra.
    + apply exact_gss_pass_count; try lra.
      * pose proof phiR_pow17. lra.
      * pose proof phiR_pow18. lra.
  - intros h. split; split.
    + exact (goldenSectionSearch_all_paths_stay _ _ _ _ b64_gss_stay_f h).
    + destruct (b64_gss_f h 20 (Nat.le_refl 20)) as (r & E & _). exists r. exact E.
    + exact (goldenSectionSearch_all_paths_stay _ _ _ _ b64_gss_stay_zeta2 h).
    + destruct (goldenSectionSearch_all_paths _ _ _ _ _ b64_gss_paths_zeta2_18 h 18
                  (Nat.le_refl 18)) as (r & E & _).
      exists r. exact E.
Qed.

End PassCounts.

(** * Not-a-number through the amplitudes *)

Section NanGeneric.
Context {T : Type} `{Number T}.
Variable nan : T.
Hypothesis laws : NanLaws nan.
Local Open Scope num_scope.

Ltac nan_simp :=
  repeat first
    [ rewrite (nan_mul_l nan laws) | rewrite (nan_mul_r nan laws)
    | rewrite (nan_add_l nan laws) | rewrite (nan_add_r nan laws)
    | rewrite (nan_sub_l nan laws) | rewrite (nan_sub_r nan laws)
    | rewrite (nan_sqrt nan laws) ].

Lemma getAmplitude_nan (g f zeta2 mu zeta1 : T) :
  f = nan \/ zeta2 = nan \/ mu = nan \/ zeta1 = nan ->
  getAmplitude g f zeta2 mu zeta1 = nan.
Proof.
  intros [ -> | [ -> | [ -> | -> ] ] ]; unfold getAmplitude; cbv zeta; nan_simp;
    rewrite (nan_eqb_l nan laws); apply (nan_div_r nan laws).
Qed.

Lemma scan_update_nan (f zeta2 mu zeta1 : T) :
  f = nan \/ zeta2 = nan \/ mu = nan \/ zeta1 = nan ->
  forall l m, fold_left (scan_update f zeta2 mu zeta1) l m = m.
Proof.
  intros Hnan. induction l as [|k l IH]; intros m; cbn [fold_left]; [reflexivity|].
  unfold scan_update at 2. cbv zeta.
  rewrite (getAmplitude_nan _ _ _ _ _ Hnan), (nan_ltb_r nan laws). apply IH.
Qed.

Lemma findPeakAmplitude_nan (f zeta2 mu zeta1 : T) :
  scan_exits_after 300 ->
  f = nan \/ zeta2 = nan \/ mu = nan \/ zeta1 = nan ->
  findPeakAmplitude f zeta2 mu zeta1 = #0.
Proof.
  intros Hexit Hnan. rewrite findPeakAmplitude_fold by exact Hexit.
  apply scan_update_nan, Hnan.
Qed.

Lemma scan_fold_not_nan (f zeta2 mu zeta1 : T) :
  forall l m, m <> nan -> fold_left (scan_update f zeta2 mu zeta1) l m <> nan.
Proof.
  induction l as [|k l IH]; intros m Hm; cbn [fold_left]; [exact Hm|].
  apply IH. unfold scan_update. cbv zeta.
  destruct (getAmplitude (scan_point k) f zeta2 mu zeta1 >? m) eqn:E; [|exact Hm].
  intros Hn. rewrite Hn, (nan_ltb_r nan laws) in E. discriminate.
Qed.

Lemma findPeakAmplitude_not_nan (f zeta2 mu zeta1 : T) :
  scan_exits_after 300 -> findPeakAmplitude f zeta2 mu zeta1 <> nan.
Proof.
  intros Hexit. rewrite findPeakAmplitude_fold by exact Hexit.
  apply scan_fold_not_nan, (nan_zero nan laws).
Qed.

End NanGeneric.

Section NanInstances.

Lemma exact_nan_laws : @NanLaws xreal _ NaN.
Proof.
  constructor; try (intros [r| | |]; reflexivity); try reflexivity.
  discriminate.
Qed.

Lemma b64_Prim2SF_nan : Prim2SF PrimFloat.nan = S754_nan.
Proof. reflexivity. Qed.

Lemma b64_nan_laws : @NanLaws float _ PrimFloat.nan.
Proof.
  constructor; cbn [nadd nsub nmul ndiv Math_sqrt neqb nltb ofZ b64].
  - intros x. apply Prim2SF_inj. rewrite FloatAxioms.add_spec, b64_Prim2SF_nan. reflexivity.
  - intros x. apply Prim2SF_inj. rewrite FloatAxioms.add_spec, b64_Prim2SF_nan.
    destruct (Prim2SF x); reflexivity.
  - intros x. apply Prim2SF_inj. rewrite FloatAxioms.sub_spec, b64_Prim2SF_nan. reflexivity.
  - intros x. apply Prim2SF_inj. rewrite FloatAxioms.sub_spec, b64_Prim2SF_nan.
    destruct (Prim2SF x); reflexivity.
  - intros x. apply Prim2SF_inj. rewrite FloatAxioms.mul_spec, b64_Prim2SF_nan. reflexivity.
  - intros x. apply Prim2SF_inj. rewrite FloatAxioms.mul_spec, b64_Prim2SF_nan.
    destruct (Prim2SF x); reflexivity.
  - intros x. apply Prim2SF_inj. rewrite FloatAxioms.div_spec, b64_Prim2SF_nan.
    destruct (Prim2SF x); reflexivity.
  - reflexivity.
  - intros x. rewrite FloatAxioms.eqb_spec, b64_Prim2SF_nan. reflexivity.
  - intros x. rewrite FloatAxioms.ltb_spec, b64_Prim2SF_nan.
    unfold SFltb, SFcompare. destruct (Prim2SF x); reflexivity.
  - intros E. apply (f_equal Prim2SF) in E. vm_compute in E. discriminate.
Qed.

End NanInstances.

(** * Further properties of the optimizer *)

Section DescentFacts.
Context {T : Type} `{Number T}.
Local Open Scope num_scope.

Lemma descent_for_S fuel mu zeta1 tol r s :
  descent_for fuel mu zeta1 tol (S r) s =
  (f <- goldenSectionSearch fuel
          (fun testF => findPeakAmplitude testF (d_zeta2 s) mu zeta1)
          (dec 5 1) (dec 15 1) tol ;;
   zeta2 <- goldenSectionSearch fuel
          (fun testZ2 => findPeakAmplitude f testZ2 mu zeta1)
          (dec 1 2) (dec 5 1) tol ;;
   if Math_abs (d_prevVal s - findPeakAmplitude f zeta2 mu zeta1) <? tol
   then Some (mkDescent f zeta2 (d_prevVal s) (findPeakAmplitude f zeta2 mu zeta1)
                (S (d_passes s)))
   else descent_for fuel mu zeta1 tol r
          (mkDescent f zeta2 (findPeakAmplitude f zeta2 mu zeta1)
             (findPeakAmplitude f zeta2 mu zeta1) (S (d_passes s)))).
Proof. reflexivity. Qed.

(** The number of passes never decreases, and grows by at most the passes
    that remain. *)
Lemma descent_for_passes fuel mu zeta1 tol :
  forall r s s',
    descent_for fuel mu zeta1 tol r s = Some s' ->
    (d_passes s <= d_passes s' <= d_passes s + r)%nat.
Proof.
  induction r as [|r IH]; intros s s'.
  - cbn [descent_for]. intros [= <-]. lia.
  - intros E. apply descent_for_result in E. lia.
Qed.

(** When the first convergence test cannot succeed, a run with two passes
    allowed makes at least two. *)
Lemma descent_for_two_passes fuel mu zeta1 tol r s s' :
  (forall c, (Math_abs (d_prevVal s - c) <? tol) = false) ->
  descent_for fuel mu zeta1 tol (S (S r)) s = Some s' ->
  (d_passes s + 2 <= d_passes s')%nat.
Proof.
  intros Hfirst. rewrite descent_for_S.
  destruct (goldenSectionSearch fuel _ (dec 5 1) (dec 15 1) tol) as [f|]; [|discriminate].
  destruct (goldenSectionSearch fuel _ (dec 1 2) (dec 5 1) tol) as [z|]; [|discriminate].
  rewrite Hfirst. intros E. apply descent_for_result in E.
  cbn [d_passes] in E. lia.
Qed.

Lemma optimizeTMD_run_passes fuel mu zeta1 s :
  (forall c, (Math_abs (Infinity - c) <? dec 1 4) = false) ->
  optimizeTMD_run fuel mu zeta1 = Some s ->
  (2 <= d_passes s <= 20)%nat.
Proof.
  intros Hfirst E. unfold optimizeTMD_run in E. cbv zeta in E.
  pose proof (descent_for_passes _ _ _ _ _ _ _ E) as Hp.
  apply descent_for_two_passes in E; [|exact Hfirst].
  cbn [d_passes] in *. lia.
Qed.

Lemma descent_for_prev_kept fuel mu zeta1 tol :
  forall r s s',
    prev_is_a_peak mu zeta1 s ->
    descent_for fuel mu zeta1 tol r s = Some s' ->
    prev_is_a_peak mu zeta1 s'.
Proof.
  induction r as [|r IH]; intros s s' Hs.
  - cbn [descent_for]. intros [= <-]. exact Hs.
  - rewrite descent_for_S.
    destruct (goldenSectionSearch fuel _ (dec 5 1) (dec 15 1) tol) as [f|]; [|discriminate].
    destruct (goldenSectionSearch fuel _ (dec 1 2) (dec 5 1) tol) as [z|]; [|discriminate].
    destruct (_ <? tol).
    + intros [= <-]. exact Hs.
    + apply IH. exists f, z. reflexivity.
Qed.

(** A run that stops with passes to spare stopped on its convergence test. *)
Lemma descent_for_early_stop fuel mu zeta1 tol :
  forall r s s',
    descent_for fuel mu zeta1 tol r s = Some s' ->
    (d_passes s' < d_passes s + r)%nat ->
    (Math_abs (d_prevVal s' - d_currentVal s') <? tol) = true
    /\ (d_passes s' = S (d_passes s) \/ prev_is_a_peak mu zeta1 s').
Proof.
  induction r as [|r IH]; intros s s'.
  - cbn [descent_for]. intros [= <-]. lia.
  - rewrite descent_for_S.
    destruct (goldenSectionSearch fuel _ (dec 5 1) (dec 15 1) tol) as [f|]; [|discriminate].
    destruct (goldenSectionSearch fuel _ (dec 1 2) (dec 5 1) tol) as [z|]; [|discriminate].
    destruct (_ <? tol) eqn:Etest.
    + intros [= <-] _. cbn [d_prevVal d_currentVal d_passes]. split; [exact Etest|].
      left. reflexivity.
    + intros E Hlt. pose proof E as E'. apply IH in E'; [|cbn [d_passes]; lia].
      destruct E' as [Ht _]. split; [exact Ht|]. right.
      eapply descent_for_prev_kept; [|exact E]. exists f, z. reflexivity.
Qed.

(** Objectives that agree everywhere drive the search alike. *)
Lemma gss_body_ext (f h : T -> T) phi s :
  (forall x, f x = h x) -> gss_body f phi s = gss_body h phi s.
Proof. intros Hfh. unfold gss_body. rewrite !Hfh. reflexivity. Qed.

Lemma gss_while_ext (f h : T -> T) phi tol :
  (forall x, f x = h x) ->
  forall fuel s, gss_while fuel f phi tol s = gss_while fuel h phi tol s.
Proof.
  intros Hfh. induction fuel as [|fuel IH]; intros s;
    rewrite (gss_while_unfold _ f), (gss_while_unfold _ h); [reflexivity|].
  rewrite (gss_body_ext f h _ _ Hfh), IH. reflexivity.
Qed.

Lemma goldenSectionSearch_ext (f h : T -> T) fuel lower upper tol :
  (forall x, f x = h x) ->
  goldenSectionSearch fuel f lower upper tol = goldenSectionSearch fuel h lower upper tol.
Proof.
  intros Hfh. unfold goldenSectionSearch, gss_init. rewrite !Hfh.
  apply gss_while_ext, Hfh.
Qed.

(** X9.  If [optimizeTMD] leaves its descent loop before the twentieth pass,
    it left through the convergence test: the peak of the last pass,
    returned as [minPeakAmp], differs by less than the tolerance 1e-4 from
    [prevVal], which is the peak at the pair of the pass before (or, if the
    loop stopped in its first pass, the initial [Infinity]). *)
Theorem early_stop_means_converged (fuel : nat) (mu zeta1 : T) (s : DescentVars T) :
  optimizeTMD_run fuel mu zeta1 = Some s ->
  (d_passes s < 20)%nat ->
  (Math_abs (d_prevVal s - d_currentVal s) <? dec 1 4) = true
  /\ d_currentVal s = findPeakAmplitude (d_f s) (d_zeta2 s) mu zeta1
  /\ (d_prevVal s = Infinity
      \/ exists f zeta2, d_prevVal s = findPeakAmplitude f zeta2 mu zeta1).
Proof.
  unfold optimizeTMD_run. cbv zeta. intros E Hlt.
  pose proof (descent_for_result _ _ _ _ _ _ _ E) as (_ & _ & Hc & _).
  destruct (descent_for_early_stop _ _ _ _ _ _ _ E) as [Ht Hprev];
    [cbn [d_passes]; lia|].
  split; [exact Ht|]. split; [exact Hc|].
  destruct Hprev as [Hone|Hpeak]; [left|right; exact Hpeak].
  cbn [d_passes] in Hone. clear Ht Hc. revert E. rewrite descent_for_S.
  destruct (goldenSectionSearch fuel _ (dec 5 1) (dec 15 1) (dec 1 4)) as [f|]; [|discriminate].
  destruct (goldenSectionSearch fuel _ (dec 1 2) (dec 5 1) (dec 1 4)) as [z|]; [|discriminate].
  destruct (_ <? dec 1 4).
  - intros E'.
    apply (f_equal (fun o => match o with Some x => d_prevVal x | None => Infinity end)) in E'.
    symmetry. exact E'.
  - intros E'. apply descent_for_result in E'. cbn [d_passes] in E'. lia.
Qed.

End DescentFacts.

Section OptimizerFacts.

Lemma exact_first_test_fails (t c : xreal) :
  nltb (Math_abs (nsub (@Infinity xreal _) c)) t = false.
Proof. destruct c; destruct t; reflexivity. Qed.

Lemma b64_Prim2SF_infinity : Prim2SF PrimFloat.infinity = S754_infinity false.
Proof. reflexivity. Qed.

Lemma b64_first_test_fails (t c : float) :
  nltb (Math_abs (nsub (@Infinity float _) c)) t = false.
Proof.
  cbn [nltb Math_abs nsub Infinity b64].
  rewrite FloatAxioms.ltb_spec, FloatAxioms.abs_spec, FloatAxioms.sub_spec,
    b64_Prim2SF_infinity.
  destruct (Prim2SF c) as [[|]|[|]| |[|] m e]; destruct (Prim2SF t) as [[|]|[|]| |[|] m' e'];
    reflexivity.
Qed.

(** X10.  In both arithmetics and for all arguments, [optimizeTMD] makes at
    least two passes of its descent loop (and at most twenty): the first
    convergence test compares with [Infinity] and cannot succeed. *)
Theorem optimizeTMD_at_least_two_passes :
  (forall (mu zeta1 : xreal) (n : nat),
      exists s, optimizeTMD_run (20 + n) mu zeta1 = Some s
                /\ (2 <= d_passes s <= 20)%nat)
  /\ (forall (mu zeta1 : float) (n : nat),
      exists s, optimizeTMD_run (20 + n) mu zeta1 = Some s
                /\ (2 <= d_passes s <= 20)%nat).
Proof.
  split; intros mu zeta1 n.
  - destruct (exact_optimizeTMD_run_total mu zeta1 (20 + n)) as [s E]; [lia|].
    exists s. split; [exact E|].
    exact (optimizeTMD_run_passes _ _ _ _ (exact_first_test_fails _) E).
  - destruct (b64_optimizeTMD_run_total mu zeta1 (20 + n)) as [s E]; [lia|].
    exists s. split; [exact E|].
    exact (optimizeTMD_run_passes _ _ _ _ (b64_first_test_fails _) E).
Qed.

Local Open Scope float_scope.

Lemma early_stop_means_converged_witness :
  PrimFloat.ltb
    (PrimFloat.abs (PrimFloat.sub 4.1486544107154879 4.1486544107154879)) 1e-4 = true.
Proof.
  pose proof (early_stop_means_converged 20 0.05 0.05
                (mkDescent 0.93563470573441043 0.13600875049983291
                   4.1486544107154879 4.1486544107154879 3)) as Hw.
  destruct Hw as [Ht _].
  - vm_compute. reflexivity.
  - cbn [d_passes]. lia.
  - exact Ht.
Defined.

End OptimizerFacts.

Section NanOptimizer.
Context {T : Type} `{Number T}.
Variable nan : T.
Hypothesis laws : NanLaws nan.
Hypothesis scan_exit : scan_exits_after 300.
Local Open Scope num_scope.

(** With a not-a-number for [mu] or [zeta1] every objective of the two
    searches is constantly zero: the optimizer makes two passes, both ending
    at the pair that the searches return for a constant objective. *)
Lemma optimizeTMD_run_nan fuel mu zeta1 fr zr :
  mu = nan \/ zeta1 = nan ->
  goldenSectionSearch fuel (fun _ => #0) (dec 5 1) (dec 15 1) (dec 1 4) = Some fr ->
  goldenSectionSearch fuel (fun _ => #0) (dec 1 2) (dec 5 1) (dec 1 4) = Some zr ->
  (forall c, (Math_abs (Infinity - c) <? dec 1 4) = false) ->
  (Math_abs (#0 - #0) <? dec 1 4) = true ->
  optimizeTMD_run fuel mu zeta1 = Some (mkDescent fr zr #0 #0 2).
Proof.
  intros Hnan Ef Ez Hfirst Hsecond.
  assert (Hpeak : forall f zeta2, findPeakAmplitude f zeta2 mu zeta1 = #0).
  { intros f zeta2. apply (findPeakAmplitude_nan nan laws); [exact scan_exit|].
    right. right. exact Hnan. }
  unfold optimizeTMD_run. cbv zeta.
  change 20%nat with (S (S 18)).
  rewrite descent_for_S. cbn [d_zeta2 d_prevVal d_passes].
  rewrite (goldenSectionSearch_ext _ (fun _ => #0)) by (intros x; apply Hpeak).
  rewrite Ef.
  rewrite (goldenSectionSearch_ext _ (fun _ => #0)) by (intros x; apply Hpeak).
  rewrite Ez, Hpeak, Hfirst.
  rewrite descent_for_S. cbn [d_zeta2 d_prevVal d_passes].
  rewrite (goldenSectionSearch_ext _ (fun _ => #0)) by (intros x; apply Hpeak).
  rewrite Ef.
  rewrite (goldenSectionSearch_ext _ (fun _ => #0)) by (intros x; apply Hpeak).
  rewrite Ez, Hpeak, Hsecond. reflexivity.
Qed.

End NanOptimizer.

Section NanFacts.

Lemma exact_scan_exits : @scan_exits_after xreal _ 300.
Proof. exact exact_scan_exit. Qed.

Lemma b64_in_box_not_nan lo hi r : in_box lo hi r = true -> r <> PrimFloat.nan.
Proof.
  intros Hb ->. unfold in_box in Hb. apply andb_prop in Hb. destruct Hb as [Hb _].
  rewrite FloatAxioms.leb_spec, b64_Prim2SF_nan in Hb.
  destruct (Prim2SF lo) as [[|]|[|]| |[|] m e]; discriminate.
Qed.

(** X11.  A not-a-number among [f], [zeta2], [mu], [zeta1] makes
    [findPeakAmplitude] return 0, in both arithmetics: every amplitude of the
    scan is a not-a-number, no comparison [amp > maxAmp] succeeds, and the
    initial [maxAmp = 0] is returned. *)
Theorem findPeakAmplitude_nan_argument :
  (forall f zeta2 mu zeta1 : xreal,
      f = NaN \/ zeta2 = NaN \/ mu = NaN \/ zeta1 = NaN ->
      findPeakAmplitude f zeta2 mu zeta1 = Fin 0)
  /\ (forall f zeta2 mu zeta1 : float,
      f = PrimFloat.nan \/ zeta2 = PrimFloat.nan \/ mu = PrimFloat.nan
      \/ zeta1 = PrimFloat.nan ->
      findPeakAmplitude f zeta2 mu zeta1 = 0%float).
Proof.
  split; intros f zeta2 mu zeta1 Hnan.
  - exact (findPeakAmplitude_nan NaN exact_nan_laws f zeta2 mu zeta1 exact_scan_exits Hnan).
  - exact (findPeakAmplitude_nan PrimFloat.nan b64_nan_laws f zeta2 mu zeta1 b64_scan_exit Hnan).
Qed.

Lemma findPeakAmplitude_nan_argument_witness :
  findPeakAmplitude (Fin 1) NaN (Fin (1 / 20)) (Fin (1 / 20)) = Fin 0
  /\ findPeakAmplitude 1%float 0.1%float PrimFloat.nan 0.05%float = 0%float.
Proof.
  split.
  - apply (proj1 findPeakAmplitude_nan_argument). right. left. reflexivity.
  - apply (proj2 findPeakAmplitude_nan_argument). right. right. left. reflexivity.
Defined.

(** X12.  In both arithmetics [findPeakAmplitude] never returns a
    not-a-number, whatever its arguments (not-a-numbers and infinities
    included), and no field of the result of [optimizeTMD] is one. *)
Theorem peak_is_never_nan :
  ((forall f zeta2 mu zeta1 : xreal, findPeakAmplitude f zeta2 mu zeta1 <> NaN)
   /\ (forall (mu zeta1 : xreal) (n : nat),
        exists r, optimizeTMD (20 + n) mu zeta1 = Some r
          /\ f_opt r <> NaN /\ zeta2_opt r <> NaN /\ minPeakAmp r <> NaN))
  /\ ((forall f zeta2 mu zeta1 : float,
        findPeakAmplitude f zeta2 mu zeta1 <> PrimFloat.nan)
   /\ (forall (mu zeta1 : float) (n : nat),
        exists r, optimizeTMD (20 + n) mu zeta1 = Some r
          /\ f_opt r <> PrimFloat.nan /\ zeta2_opt r <> PrimFloat.nan
          /\ minPeakAmp r <> PrimFloat.nan)).
Proof.
  split; split.
  - intros f zeta2 mu zeta1.
    exact (findPeakAmplitude_not_nan NaN exact_nan_laws f zeta2 mu zeta1 exact_scan_exits).
  - intros mu zeta1 n.
    destruct (exact_optimizeTMD_run_total mu zeta1 (20 + n)) as [s E]; [lia|].
    destruct (exact_optimizeTMD_run_box _ _ _ _ E) as (f & z & Hf & Hz & _).
    destruct (returns_current_peak_of_run _ _ _ _ E)
      as (s' & r & E' & _ & Er & Hrf & Hrz & Hrm).
    assert (s' = s) as -> by congruence.
    exists r. split; [exact Er|]. rewrite Hrm, Hrf, Hrz, Hf, Hz.
    split; [discriminate|]. split; [discriminate|].
    exact (findPeakAmplitude_not_nan NaN exact_nan_laws _ _ _ _ exact_scan_exits).
  - intros f zeta2 mu zeta1.
    exact (findPeakAmplitude_not_nan PrimFloat.nan b64_nan_laws f zeta2 mu zeta1 b64_scan_exit).
  - intros mu zeta1 n.
    destruct (b64_optimizeTMD_run_total mu zeta1 (20 + n)) as [s E]; [lia|].
    destruct (b64_optimizeTMD_run_box _ _ _ _ E) as (Hf & Hz).
    destruct (returns_current_peak_of_run _ _ _ _ E)
      as (s' & r & E' & _ & Er & Hrf & Hrz & Hrm).
    assert (s' = s) as -> by congruence.
    exists r. split; [exact Er|]. rewrite Hrm, Hrf, Hrz.
    split; [exact (b64_in_box_not_nan _ _ _ Hf)|].
    split; [exact (b64_in_box_not_nan _ _ _ Hz)|].
    exact (findPeakAmplitude_not_nan PrimFloat.nan b64_nan_laws _ _ _ _ b64_scan_exit).
Qed.

Lemma b64_gss_constant_f :
  goldenSectionSearch 20 (fun _ : float => ofZ 0) (dec 5 1) (dec 15 1) (dec 1 4)
  = Some 1.4999669465193239%float.
Proof. vm_compute. reflexivity. Qed.

Lemma b64_gss_constant_zeta2 :
  goldenSectionSearch 20 (fun _ : float => ofZ 0) (dec 1 2) (dec 5 1) (dec 1 4)
  = Some 0.49995759778343052%float.
Proof. vm_compute. reflexivity. Qed.

Lemma b64_second_test_zero :
  nltb (Math_abs (nsub (@ofZ float _ 0) (ofZ 0))) (dec 1 4) = true.
Proof. vm_compute. reflexivity. Qed.

Lemma b64_optimizeTMD_run_nan (mu zeta1 : float) (n : nat) :
  mu = PrimFloat.nan \/ zeta1 = PrimFloat.nan ->
  optimizeTMD_run (20 + n) mu zeta1
  = Some (mkDescent 1.4999669465193239%float 0.49995759778343052%float
            0%float 0%float 2).
Proof.
  intros Hnan.
  assert (E : optimizeTMD_run (20 + n) mu zeta1
              = Some (mkDescent 1.4999669465193239%float 0.49995759778343052%float
                        (ofZ 0) (ofZ 0) 2)).
  { apply (optimizeTMD_run_nan PrimFloat.nan b64_nan_laws b64_scan_exit).
    - exact Hnan.
    - apply goldenSectionSearch_mono with (fuel := 20%nat); [exact b64_gss_constant_f|lia].
    - apply goldenSectionSearch_mono with (fuel := 20%nat); [exact b64_gss_constant_zeta2|lia].
    - intros c. apply b64_first_test_fails.
    - exact b64_second_test_zero. }
  exact E.
Qed.

(** X13.  In binary64, a not-a-number for the mass ratio or for the primary
    damping does not show in the result of [optimizeTMD]: after two passes
    it returns the same pair near the upper corner of the search boxes
    together with a peak amplitude of 0. *)
Theorem optimizeTMD_nan_input (mu zeta1 : float) (n : nat) :
  mu = PrimFloat.nan \/ zeta1 = PrimFloat.nan ->
  optimizeTMD_run (20 + n) mu zeta1
  = Some (mkDescent 1.4999669465193239%float 0.49995759778343052%float
            0%float 0%float 2)
  /\ optimizeTMD (20 + n) mu zeta1
     = Some (mkResult 1.4999669465193239%float 0.49995759778343052%float 0%float).
Proof.
  intros Hnan. pose proof (b64_optimizeTMD_run_nan mu zeta1 n Hnan) as E.
  split; [exact E|].
  apply optimizeTMD_of_run. eexists. split; [exact E|]. reflexivity.
Qed.

Lemma optimizeTMD_nan_input_witness :
  optimizeTMD 20 PrimFloat.nan 0.05%float
  = Some (mkResult 1.4999669465193239%float 0.49995759778343052%float 0%float).
Proof.
  apply (optimizeTMD_nan_input PrimFloat.nan 0.05%float 0). left. reflexivity.
Defined.

End NanFacts.

(** * The charts of App.tsx *)

Section ChartLoops.
Context {T : Type} `{Number T}.
Variable label : T -> T.
Local Open Scope num_scope.

Lemma frequencyData_for_map params f_opt zeta2_opt (last : nat) :
  exits_after chart_point #2 last ->
  forall n k data budget,
    (k + n = S last)%nat -> (n < budget)%nat ->
    App.frequencyData_for label budget params f_opt zeta2_opt (chart_point k) data
    = Some (data ++ map (fun i => App.frequencyPoint label params f_opt zeta2_opt (chart_point i))
                      (seq k n)).
Proof.
  intros [Hin Hout].
  induction n as [|n IH]; intros k data budget Hk Hb;
    (destruct budget as [|budget]; [lia|]); cbn [App.frequencyData_for seq map].
  - replace k with (S last) by lia. rewrite Hout, app_nil_r. reflexivity.
  - rewrite Hin by lia.
    change (chart_point k + dec 15 3) with (chart_point (S k)).
    rewrite IH by lia. rewrite <- app_assoc. reflexivity.
Qed.

Lemma frequencyData_chart fuel params o (last : nat) :
  exits_after chart_point #2 last -> (S last < App.loopBudget)%nat ->
  App.optimization fuel params = Some o ->
  exists data,
    App.frequencyData label fuel params = Some data
    /\ chart_of label params (f_opt (App.spread o)) (zeta2_opt (App.spread o)) (S last) data.
Proof.
  intros Hexit Hb Eo. unfold App.frequencyData. rewrite Eo.
  change (dec 5 1) with (chart_point 0).
  rewrite (frequencyData_for_map _ _ _ last Hexit (S last) 0) by lia.
  eexists. split; reflexivity.
Qed.

Lemma massRatio_for_curve fuel params (last : nat) :
  exits_after curve_point #1 last ->
  (forall mu, exists r, optimizeTMD fuel mu (App.zeta1 params) = Some r) ->
  forall n k data budget,
    (k + n = S last)%nat -> (n < budget)%nat ->
    curve_of label fuel params k data ->
    exists data',
      App.massRatio_for label fuel budget params (curve_point k) data = Some data'
      /\ curve_of label fuel params (S last) data'.
Proof.
  intros [Hin Hout] Htotal.
  induction n as [|n IH]; intros k data budget Hk Hb Hdata;
    (destruct budget as [|budget]; [lia|]); cbn [App.massRatio_for].
  - replace k with (S last) in * by lia. rewrite Hout. exists data. split; [reflexivity|exact Hdata].
  - rewrite Hin by lia. unfold App.massRatioPoint.
    destruct (Htotal (curve_point k)) as [r Er]. rewrite Er.
    change (curve_point k + dec 5 3) with (curve_point (S k)).
    apply IH; [lia|lia|].
    destruct Hdata as [Hlen Hpts]. split.
    + rewrite length_app, Hlen. cbn [length]. lia.
    + intros i Hi. destruct (Nat.eq_dec i k) as [->|Hne].
      * exists r. split; [exact Er|].
        rewrite nth_error_app2 by lia. rewrite Hlen, Nat.sub_diag. reflexivity.
      * destruct (Hpts i) as (r' & Er' & Hn); [lia|].
        exists r'. split; [exact Er'|].
        rewrite nth_error_app1 by lia. exact Hn.
Qed.

Lemma calculateMassRatioCurve_curve fuel params (last : nat) :
  exits_after curve_point #1 last -> (S last < App.loopBudget)%nat ->
  (forall mu, exists r, optimizeTMD fuel mu (App.zeta1 params) = Some r) ->
  exists data,
    App.calculateMassRatioCurve label fuel params = Some data
    /\ curve_of label fuel params (S last) data.
Proof.
  intros Hexit Hb Htotal. unfold App.calculateMassRatioCurve.
  change (dec 1 2) with (curve_point 0).
  apply (massRatio_for_curve fuel params last Hexit Htotal (S last) 0); [lia|exact Hb|].
  split; [reflexivity|]. intros k Hk. lia.
Qed.

Lemma optimization_of_result fuel params r :
  optimizeTMD fuel (App.m2 params / App.m1 params) (App.zeta1 params) = Some r ->
  App.optimization fuel params = Some (App.mkOptimization r (App.m2 params / App.m1 params)).
Proof. intros E. unfold App.optimization. cbv zeta. rewrite E. reflexivity. Qed.

End ChartLoops.

Section ChartFacts.
Local Open Scope R_scope.

Lemma exact_chart_point k : @chart_point xreal _ k = Fin (chartR k).
Proof.
  induction k as [|k IH].
  - cbn [chart_point]. rewrite exact_dec by lia. unfold chartR.
    simpl INR. f_equal. change (10 ^ 1)%Z with 10%Z. lra.
  - cbn [chart_point]. rewrite IH, exact_dec by lia.
    change (10 ^ 3)%Z with 1000%Z. cbn [nadd exact xadd]. f_equal.
    unfold chartR. rewrite S_INR. lra.
Qed.

Lemma exact_curve_point k : @curve_point xreal _ k = Fin (curveR k).
Proof.
  induction k as [|k IH].
  - cbn [curve_point]. rewrite exact_dec by lia. unfold curveR.
    simpl INR. f_equal. change (10 ^ 2)%Z with 100%Z. lra.
  - cbn [curve_point]. rewrite IH, exact_dec by lia.
    change (10 ^ 3)%Z with 1000%Z. cbn [nadd exact xadd]. f_equal.
    unfold curveR. rewrite S_INR. lra.
Qed.

Lemma chartR_grid k : chartR k = gridR (3 * k).
Proof. unfold chartR, gridR. rewrite mult_INR. simpl INR. lra. Qed.

Lemma exact_chart_exit : @exits_after xreal _ chart_point (ofZ 2) 100.
Proof.
  split.
  - intros k Hk. rewrite exact_chart_point. cbn [nleb ofZ exact xleb].
    apply Rleb_true. rewrite chartR_grid. apply gridR_le_2. lia.
  - rewrite exact_chart_point. cbn [nleb ofZ exact xleb].
    apply Rleb_false. apply Rnot_le_lt. intros Hc.
    rewrite chartR_grid in Hc. apply gridR_le_2 in Hc. lia.
Qed.

Lemma exact_curve_exit : @exits_after xreal _ curve_point (ofZ 1) 198.
Proof.
  split.
  - intros k Hk. rewrite exact_curve_point. cbn [nleb ofZ exact xleb].
    apply Rleb_true. unfold curveR. apply le_INR in Hk.
    replace (INR 198) with 198 in Hk by (simpl; lra). lra.
  - rewrite exact_curve_point. cbn [nleb ofZ exact xleb].
    apply Rleb_false. unfold curveR.
    replace (INR 199) with 199 by (simpl; lra). lra.
Qed.

Lemma exact_curve_last : @curve_point xreal _ 198 = Fin 1.
Proof.
  rewrite exact_curve_point. f_equal. unfold curveR.
  replace (INR 198) with 198 by (simpl; lra). lra.
Qed.

Lemma b64_chart_exit : @exits_after float _ chart_point (ofZ 2) 100.
Proof.
  split.
  - assert (Hall : forallb (fun k => nleb (@chart_point float _ k) (ofZ 2)) (seq 0 101) = true)
      by (vm_compute; reflexivity).
    intros k Hk. rewrite forallb_forall in Hall. apply Hall.
    apply in_seq. lia.
  - vm_compute. reflexivity.
Qed.

Lemma b64_curve_exit : @exits_after float _ curve_point (ofZ 1) 197.
Proof.
  split.
  - assert (Hall : forallb (fun k => nleb (@curve_point float _ k) (ofZ 1)) (seq 0 198) = true)
      by (vm_compute; reflexivity).
    intros k Hk. rewrite forallb_forall in Hall. apply Hall.
    apply in_seq. lia.
  - vm_compute. reflexivity.
Qed.

Lemma b64_curve_last :
  @curve_point float _ 197 = 0.9950000000000008%float
  /\ @curve_point float _ 198 = 1.0000000000000007%float.
Proof. split; vm_compute; reflexivity. Qed.

Lemma b64_chart_last : @chart_point float _ 100 = 1.999999999999994%float.
Proof. vm_compute. reflexivity. Qed.

Lemma exact_optimizeTMD_total (mu zeta1 : xreal) (fuel : nat) :
  (20 <= fuel)%nat -> exists r, optimizeTMD fuel mu zeta1 = Some r.
Proof.
  intros Hfuel. destruct (exact_optimizeTMD_run_total mu zeta1 fuel Hfuel) as [s E].
  eexists. unfold optimizeTMD. rewrite E. reflexivity.
Qed.

Lemma b64_optimizeTMD_total (mu zeta1 : float) (fuel : nat) :
  (20 <= fuel)%nat -> exists r, optimizeTMD fuel mu zeta1 = Some r.
Proof.
  intros Hfuel. destruct (b64_optimizeTMD_run_total mu zeta1 fuel Hfuel) as [s E].
  eexists. unfold optimizeTMD. rewrite E. reflexivity.
Qed.

(** X14.  The mass-ratio curve of [calculateMassRatioCurve] holds, point by
    point, the results of [optimizeTMD] at the accumulated values of [mu].
    In exact arithmetic it has 199 points and ends at [mu = 1]; in binary64
    it has 198 points for every damping and label function: the accumulated
    [mu] reaches 0.9950000000000008 and then 1.0000000000000007, which fails
    [mu <= 1.0], so the end point [mu = 1.0] is never computed. *)
Theorem mass_ratio_curve_points :
  (forall (label : xreal -> xreal) (params : App.SystemParams xreal) (n : nat),
      exists data,
        App.calculateMassRatioCurve label (20 + n) params = Some data
        /\ curve_of label (20 + n) params 199 data
        /\ @curve_point xreal _ 198 = Fin 1)
  /\ (forall (label : float -> float) (params : App.SystemParams float) (n : nat),
      exists data,
        App.calculateMassRatioCurve label (20 + n) params = Some data
        /\ curve_of label (20 + n) params 198 data
        /\ @curve_point float _ 197 = 0.9950000000000008%float
        /\ PrimFloat.leb (PrimFloat.add 0.9950000000000008 0.005) 1 = false).
Proof.
  split; intros label params n.
  - destruct (calculateMassRatioCurve_curve label (20 + n) params 198) as (data & E & Hc).
    + exact exact_curve_exit.
    + unfold App.loopBudget. lia.
    + intros mu. apply exact_optimizeTMD_total. lia.
    + exists data. split; [exact E|]. split; [exact Hc|]. exact exact_curve_last.
  - destruct (calculateMassRatioCurve_curve label (20 + n) params 197) as (data & E & Hc).
    + exact b64_curve_exit.
    + unfold App.loopBudget. lia.
    + intros mu. apply b64_optimizeTMD_total. lia.
    + exists data. split; [exact E|]. split; [exact Hc|].
      split; [apply b64_curve_last|]. vm_compute. reflexivity.
Qed.

(** X15.  In both arithmetics and for every state [params] (zero or
    non-finite masses included) [frequencyData] returns 101 points: the
    objects of lines 50-62 at [g = 0.5, 0.515, ...] for the pair of
    [optimization].  In binary64 the last [g] is 1.999999999999994. *)
Theorem frequency_chart_points :
  (forall (label : xreal -> xreal) (params : App.SystemParams xreal) (n : nat),
      exists o data,
        App.optimization (20 + n) params = Some o
        /\ App.frequencyData label (20 + n) params = Some data
        /\ chart_of label params (f_opt (App.spread o)) (zeta2_opt (App.spread o)) 101 data
        /\ length data = 101%nat
        /\ @chart_point xreal _ 100 = Fin 2)
  /\ (forall (label : float -> float) (params : App.SystemParams float) (n : nat),
      exists o data,
        App.optimization (20 + n) params = Some o
        /\ App.frequencyData label (20 + n) params = Some data
        /\ chart_of label params (f_opt (App.spread o)) (zeta2_opt (App.spread o)) 101 data
        /\ length data = 101%nat
        /\ @chart_point float _ 100 = 1.999999999999994%float).
Proof.
  split; intros label params n.
  - destruct (exact_optimizeTMD_total (ndiv (App.m2 params) (App.m1 params))
                (App.zeta1 params) (20 + n)) as [r Er]; [lia|].
    pose proof (optimization_of_result _ _ _ Er) as Eo.
    destruct (frequencyData_chart label _ _ _ 100 exact_chart_exit
                ltac:(unfold App.loopBudget; lia) Eo) as (data & Ed & Hc).
    eexists. exists data. split; [exact Eo|]. split; [exact Ed|]. split; [exact Hc|].
    split.
    + rewrite Hc, length_map, length_seq. reflexivity.
    + rewrite exact_chart_point. f_equal. unfold chartR.
      replace (INR 100) with 100 by (simpl; lra). lra.
  - destruct (b64_optimizeTMD_total (ndiv (App.m2 params) (App.m1 params))
                (App.zeta1 params) (20 + n)) as [r Er]; [lia|].
    pose proof (optimization_of_result _ _ _ Er) as Eo.
    destruct (frequencyData_chart label _ _ _ 100 b64_chart_exit
                ltac:(unfold App.loopBudget; lia) Eo) as (data & Ed & Hc).
    eexists. exists data. split; [exact Eo|]. split; [exact Ed|]. split; [exact Hc|].
    split.
    + rewrite Hc, length_map, length_seq. reflexivity.
    + exact b64_chart_last.
Qed.

End ChartFacts.

Section ChartValues.

(** X17.  In binary64, for every state [params] (zero, negative or
    non-finite entries included), no value of the frequency chart is
    negative: in each of the 101 points the bare-primary amplitude and the
    nine absorber curves are each a not-a-number or a number [>= 0]
    ([Infinity] included). *)
Theorem chart_values_never_negative
    (label : float -> float) (params : App.SystemParams float) (n : nat) :
  exists data,
    App.frequencyData label (20 + n) params = Some data
    /\ length data = 101%nat
    /\ forall p, In p data ->
         never_negative (App.originalAmp p)
         /\ forall v, In v (tmd_curves p) -> never_negative v.
Proof.
  destruct (b64_optimizeTMD_total (ndiv (App.m2 params) (App.m1 params))
              (App.zeta1 params) (20 + n)) as [r Er]; [lia|].
  pose proof (optimization_of_result _ _ _ Er) as Eo.
  destruct (frequencyData_chart label _ _ _ 100 b64_chart_exit
              ltac:(unfold App.loopBudget; lia) Eo) as (data & Ed & Hc).
  exists data. split; [exact Ed|]. split.
  - rewrite Hc, length_map, length_seq. reflexivity.
  - intros p Hp. unfold chart_of in Hc. rewrite Hc in Hp.
    apply in_map_iff in Hp. destruct Hp as (k & <- & _). split.
    + unfold App.frequencyPoint. cbn [App.originalAmp].
      apply b64_nonneg_never_negative, b64_getOriginalAmplitude_nonneg.
    + intros v Hv. unfold tmd_curves, App.frequencyPoint in Hv. cbv zeta in Hv.
      cbn [App.optimizedAmp App.z50 App.z80 App.z120 App.z150 App.f98 App.f99 App.f101
           App.f102 In] in Hv.
      repeat match type of Hv with
      | _ \/ _ => destruct Hv as [Hv|Hv]
      end; try contradiction; rewrite <- Hv;
        apply b64_nonneg_never_negative, b64_getAmplitude_nonneg.
Qed.

End ChartValues.

(** * The input guard and degenerate masses *)

Section InputGuard.
Context {T : Type} `{Number T}.
Variable nan : T.
Hypothesis laws : NanLaws nan.
Local Open Scope num_scope.

Lemma ToBoolean_zero : ToBoolean #0 = false.
Proof. unfold ToBoolean. destruct (#0 === #0); reflexivity. Qed.

Lemma ToBoolean_nan : ToBoolean nan = false.
Proof. unfold ToBoolean. rewrite (nan_eqb_l nan laws). reflexivity. Qed.

Lemma onChange_value_cases (parsed : T) :
  (ToBoolean parsed = true /\ onChange_value parsed = parsed)
  \/ (ToBoolean parsed = false /\ onChange_value parsed = #0).
Proof.
  unfold onChange_value, js_or. destruct (ToBoolean parsed); [left|right]; split; reflexivity.
Qed.

Lemma onChange_value_not_nan (parsed : T) : onChange_value parsed <> nan.
Proof.
  destruct (onChange_value_cases parsed) as [[Ht ->]|[_ ->]].
  - intros ->. rewrite ToBoolean_nan in Ht. discriminate.
  - exact (nan_zero nan laws).
Qed.

Lemma onChange_value_idempotent (parsed : T) :
  onChange_value (onChange_value parsed) = onChange_value parsed.
Proof.
  destruct (onChange_value_cases parsed) as [[Ht E]|[_ E]]; rewrite E.
  - unfold onChange_value, js_or. rewrite Ht. reflexivity.
  - unfold onChange_value, js_or. rewrite ToBoolean_zero. reflexivity.
Qed.

End InputGuard.

Section DegenerateMasses.

(** X18.  In both arithmetics the number that [NumberInput] hands to
    [onChange] is never a not-a-number: it is the parsed number when that is
    a number other than zero, and 0 otherwise (so for an empty or unparsable
    field); a not-a-number becomes 0, in binary64 a negative zero becomes the
    positive one, and applying the guard twice changes nothing. *)
Theorem number_input_never_passes_nan :
  (forall parsed : xreal,
      onChange_value parsed <> NaN
      /\ (onChange_value parsed = parsed \/ onChange_value parsed = Fin 0)
      /\ onChange_value (onChange_value parsed) = onChange_value parsed)
  /\ @onChange_value xreal _ NaN = Fin 0
  /\ (forall parsed : float,
      onChange_value parsed <> PrimFloat.nan
      /\ (onChange_value parsed = parsed \/ onChange_value parsed = 0%float)
      /\ onChange_value (onChange_value parsed) = onChange_value parsed)
  /\ @onChange_value float _ PrimFloat.nan = 0%float
  /\ @onChange_value float _ (-0)%float = 0%float.
Proof.
  split; [|split; [reflexivity|split; [|split; vm_compute; reflexivity]]].
  - intros parsed. split; [exact (onChange_value_not_nan NaN exact_nan_laws parsed)|].
    split; [|exact (onChange_value_idempotent parsed)].
    destruct (onChange_value_cases parsed) as [[_ E]|[_ E]]; [left|right]; exact E.
  - intros parsed. split; [exact (onChange_value_not_nan PrimFloat.nan b64_nan_laws parsed)|].
    split; [|exact (onChange_value_idempotent parsed)].
    destruct (onChange_value_cases parsed) as [[_ E]|[_ E]]; [left|right]; exact E.
Qed.

(** X19.  In binary64, when the mass ratio [m2 / m1] is a not-a-number (as
    for [m1 = m2 = 0], two values the input guard lets through) or the
    damping is one, [optimization] still returns: the pair
    (1.4999669465193239, 0.49995759778343052) with a reported peak of 0, and
    [frequencyData] returns its 101 points, in each of which all nine
    absorber curves are not-a-numbers. *)
Theorem nan_mass_ratio_chart (label : float -> float) (params : App.SystemParams float)
    (n : nat) :
  PrimFloat.div (App.m2 params) (App.m1 params) = PrimFloat.nan
  \/ App.zeta1 params = PrimFloat.nan ->
  App.optimization (20 + n) params
  = Some (App.mkOptimization
            (mkResult 1.4999669465193239%float 0.49995759778343052%float 0%float)
            (PrimFloat.div (App.m2 params) (App.m1 params)))
  /\ exists data,
       App.frequencyData label (20 + n) params = Some data
       /\ length data = 101%nat
       /\ forall p, In p data -> forall v, In v (tmd_curves p) -> v = PrimFloat.nan.
Proof.
  intros Hnan.
  pose proof (b64_optimizeTMD_run_nan _ _ n Hnan) as Erun.
  assert (Er : optimizeTMD (20 + n) (ndiv (App.m2 params) (App.m1 params)) (App.zeta1 params)
               = Some (mkResult 1.4999669465193239%float 0.49995759778343052%float 0%float)).
  { apply optimizeTMD_of_run. eexists. split; [exact Erun|]. reflexivity. }
  pose proof (optimization_of_result _ _ _ Er) as Eo.
  split; [exact Eo|].
  destruct (frequencyData_chart label _ _ _ 100 b64_chart_exit
              ltac:(unfold App.loopBudget; lia) Eo) as (data & Ed & Hc).
  exists data. split; [exact Ed|]. split.
  - rewrite Hc, length_map, length_seq. reflexivity.
  - intros p Hp v Hv. unfold chart_of in Hc. rewrite Hc in Hp.
    apply in_map_iff in Hp. destruct Hp as (k & <- & _).
    unfold tmd_curves, App.frequencyPoint in Hv. cbv zeta in Hv.
    cbn [App.optimizedAmp App.z50 App.z80 App.z120 App.z150 App.f98 App.f99 App.f101
         App.f102 In] in Hv.
    assert (Hamp : forall g f zeta2,
               getAmplitude g f zeta2 (ndiv (App.m2 params) (App.m1 params))
                 (App.zeta1 params) = PrimFloat.nan).
    { intros g f zeta2. apply (getAmplitude_nan PrimFloat.nan b64_nan_laws).
      right. right. exact Hnan. }
    repeat match type of Hv with
    | _ \/ _ => destruct Hv as [Hv|Hv]
    end; try contradiction; rewrite <- Hv; apply Hamp.
Qed.

Lemma nan_mass_ratio_chart_witness :
  App.optimization 20 (App.mkSystemParams 0%float 5%float 0.05%float 0%float)
  = Some (App.mkOptimization
            (mkResult 1.4999669465193239%float 0.49995759778343052%float 0%float)
            PrimFloat.nan).
Proof.
  apply (nan_mass_ratio_chart (fun x => x)
           (App.mkSystemParams 0%float 5%float 0.05%float 0%float) 0).
  left. vm_compute. reflexivity.
Defined.

End DegenerateMasses.
